(** * The v3 autocomplete extractor: crawl engine

    A shallow embedding of [AutocompleteExtractor] (src/v3_extractor.py):
    the prefix-expansion step, the fetch with its retry policy, the adaptive
    delay, the worker iteration, the checkpoint save and load, the start of
    the crawl and the output of the results.

    Conventions of the embedding.
    - A Python [str] is the list of its code points ([pystr]); [len] is
      [length], indexing is [!!], concatenation is [++], and the comparison
      of two one-character strings is the comparison of their code points.
    - Python [int]s are [Z]; the delay, a Python [float], is an exact
      rational ([Q]): rounding is not modelled, only the order, the two
      scalings and the clamping by [min] and [max].  The literals are the
      decimal ones of the source.
    - The object's attributes are the fields of the record [extractor]; a
      method is a function from the state before to the state after (and a
      result).  The locks make each guarded block atomic; the embedding is
      the sequential reading of the code, one worker iteration at a time.
    - The remote service, the clock and the file system are the
      environment: each request of a fetch receives an [outcome], which
      carries the reading of the clock and whether a write of the checkpoint
      file succeeds; times are exact rationals.  Sleeping and logging leave
      the state unchanged and are omitted, and so are [prefix_length_stats],
      which only the log lines read, the count of active threads and the
      monitoring loop of [crawl_autocomplete].
    - The checkpoint file is the field [disk]: [None] when the file does not
      exist, otherwise the dictionary that was dumped. *)

From Stdlib Require Import ZArith QArith Qminmax Lqa List String Ascii Bool Lia.
From stdpp Require Import base gmap sets list sorting.

Local Open Scope Z_scope.

(** ** Strings *)

(** A character is its code point, a string the list of its characters. *)
Abbreviation char := N (only parsing).
Abbreviation pystr := (list N) (only parsing).

Module PyStr.

Definition str (s : string) : pystr :=
  map N_of_ascii (list_ascii_of_string s).

(** [len(s)] as a Python int, for a string and for a list. *)
Definition len {A} (s : list A) : Z := Z.of_nat (length s).

(** [s.replace(old, '')] for a one-character [old]. *)
Definition remove_char (old : char) (s : pystr) : pystr :=
  List.filter (fun c => negb (N.eqb c old)) s.

(** [c in s] for a one-character [c]. *)
Definition contains (c : char) (s : pystr) : bool :=
  existsb (N.eqb c) s.

(** [a < b] on strings: lexicographic on code points. *)
Fixpoint ltb (a b : pystr) : bool :=
  match a, b with
  | [], [] => false
  | [], _ :: _ => true
  | _ :: _, [] => false
  | x :: a', y :: b' =>
      if N.ltb x y then true else if N.ltb y x then false else ltb a' b'
  end.

(** The constants of the [string] module. *)
Definition digits : pystr := str "0123456789".
Definition ascii_lowercase : pystr := str "abcdefghijklmnopqrstuvwxyz".
Definition quotation_mark : char := 34%N.
Definition apostrophe : char := 39%N.
Definition backslash : char := 92%N.
Definition punctuation : pystr :=
  str "!" ++ [quotation_mark] ++ str "#$%&" ++ [apostrophe]
    ++ str "()*+,-./:;<=>?@[" ++ [backslash] ++ str "]^_`{|}~".

End PyStr.
Import PyStr.

(** ** Numbers of the delay *)

Definition Qltb (x y : Q) : bool := negb (Qle_bool y x).

(** [min(a, b)] and [max(a, b)] as Python evaluates them: the first argument
    is kept unless the second is strictly smaller (larger). *)
Definition pymin (a b : Q) : Q := if Qltb b a then b else a.
Definition pymax (a b : Q) : Q := if Qltb a b then b else a.
Definition pymaxZ (a b : Z) : Z := if a <? b then b else a.

(** ** The extractor object *)

Record counters := { success : Z; failure : Z }.

(** The dictionary written by [_save_checkpoint] (the time stamp and the
    statistics apart). *)
Record checkpoint_data := {
  cp_discovered_names : list pystr;
  cp_explored_prefixes : list pystr;
  cp_request_count : Z
}.

Record extractor := {
  max_results : Z;
  checkpoint_interval : Z;
  discovered_names : gset pystr;
  request_count : Z;
  explored_prefixes : gset pystr;
  prefix_queue : list (Z * pystr);
  adaptive_delay : Q;
  max_adaptive_delay : Q;
  min_adaptive_delay : Q;
  rate_limit_counters : counters;
  last_checkpoint_time : Q;
  disk : option checkpoint_data
}.

Definition charset : pystr := digits ++ ascii_lowercase.
Definition special_charset : pystr :=
  remove_char apostrophe
    (remove_char quotation_mark (remove_char backslash punctuation)).
Definition full_charset : pystr := charset ++ special_charset.

(** [__init__]; [fs] is the checkpoint file as it is on disk when the
    object is built, [now] what [time.time()] reads there. *)
Definition init (max_results : Z) (rate_limit_delay : Q)
    (checkpoint_interval : Z) (fs : option checkpoint_data) (now : Q)
    : extractor :=
  {| max_results := max_results;
     checkpoint_interval := checkpoint_interval;
     discovered_names := ∅;
     request_count := 0;
     explored_prefixes := ∅;
     prefix_queue := [];
     adaptive_delay := rate_limit_delay;
     max_adaptive_delay := 3.0;
     min_adaptive_delay := 0.8;
     rate_limit_counters := {| success := 0; failure := 0 |};
     last_checkpoint_time := now;
     disk := fs |}.

(** Attribute assignments. *)
Definition set_discovered_names (v : gset pystr) (s : extractor) :=
  {| max_results := max_results s;
     checkpoint_interval := checkpoint_interval s;
     discovered_names := v;
     request_count := request_count s;
     explored_prefixes := explored_prefixes s;
     prefix_queue := prefix_queue s;
     adaptive_delay := adaptive_delay s;
     max_adaptive_delay := max_adaptive_delay s;
     min_adaptive_delay := min_adaptive_delay s;
     rate_limit_counters := rate_limit_counters s;
     last_checkpoint_time := last_checkpoint_time s;
     disk := disk s |}.

Definition set_request_count (v : Z) (s : extractor) :=
  {| max_results := max_results s;
     checkpoint_interval := checkpoint_interval s;
     discovered_names := discovered_names s;
     request_count := v;
     explored_prefixes := explored_prefixes s;
     prefix_queue := prefix_queue s;
     adaptive_delay := adaptive_delay s;
     max_adaptive_delay := max_adaptive_delay s;
     min_adaptive_delay := min_adaptive_delay s;
     rate_limit_counters := rate_limit_counters s;
     last_checkpoint_time := last_checkpoint_time s;
     disk := disk s |}.

Definition set_explored_prefixes (v : gset pystr) (s : extractor) :=
  {| max_results := max_results s;
     checkpoint_interval := checkpoint_interval s;
     discovered_names := discovered_names s;
     request_count := request_count s;
     explored_prefixes := v;
     prefix_queue := prefix_queue s;
     adaptive_delay := adaptive_delay s;
     max_adaptive_delay := max_adaptive_delay s;
     min_adaptive_delay := min_adaptive_delay s;
     rate_limit_counters := rate_limit_counters s;
     last_checkpoint_time := last_checkpoint_time s;
     disk := disk s |}.

Definition set_prefix_queue (v : list (Z * pystr)) (s : extractor) :=
  {| max_results := max_results s;
     checkpoint_interval := checkpoint_interval s;
     discovered_names := discovered_names s;
     request_count := request_count s;
     explored_prefixes := explored_prefixes s;
     prefix_queue := v;
     adaptive_delay := adaptive_delay s;
     max_adaptive_delay := max_adaptive_delay s;
     min_adaptive_delay := min_adaptive_delay s;
     rate_limit_counters := rate_limit_counters s;
     last_checkpoint_time := last_checkpoint_time s;
     disk := disk s |}.

Definition set_adaptive_delay (v : Q) (s : extractor) :=
  {| max_results := max_results s;
     checkpoint_interval := checkpoint_interval s;
     discovered_names := discovered_names s;
     request_count := request_count s;
     explored_prefixes := explored_prefixes s;
     prefix_queue := prefix_queue s;
     adaptive_delay := v;
     max_adaptive_delay := max_adaptive_delay s;
     min_adaptive_delay := min_adaptive_delay s;
     rate_limit_counters := rate_limit_counters s;
     last_checkpoint_time := last_checkpoint_time s;
     disk := disk s |}.

Definition set_rate_limit_counters (v : counters) (s : extractor) :=
  {| max_results := max_results s;
     checkpoint_interval := checkpoint_interval s;
     discovered_names := discovered_names s;
     request_count := request_count s;
     explored_prefixes := explored_prefixes s;
     prefix_queue := prefix_queue s;
     adaptive_delay := adaptive_delay s;
     max_adaptive_delay := max_adaptive_delay s;
     min_adaptive_delay := min_adaptive_delay s;
     rate_limit_counters := v;
     last_checkpoint_time := last_checkpoint_time s;
     disk := disk s |}.

Definition set_last_checkpoint_time (v : Q) (s : extractor) :=
  {| max_results := max_results s;
     checkpoint_interval := checkpoint_interval s;
     discovered_names := discovered_names s;
     request_count := request_count s;
     explored_prefixes := explored_prefixes s;
     prefix_queue := prefix_queue s;
     adaptive_delay := adaptive_delay s;
     max_adaptive_delay := max_adaptive_delay s;
     min_adaptive_delay := min_adaptive_delay s;
     rate_limit_counters := rate_limit_counters s;
     last_checkpoint_time := v;
     disk := disk s |}.

Definition set_disk (v : option checkpoint_data) (s : extractor) :=
  {| max_results := max_results s;
     checkpoint_interval := checkpoint_interval s;
     discovered_names := discovered_names s;
     request_count := request_count s;
     explored_prefixes := explored_prefixes s;
     prefix_queue := prefix_queue s;
     adaptive_delay := adaptive_delay s;
     max_adaptive_delay := max_adaptive_delay s;
     min_adaptive_delay := min_adaptive_delay s;
     rate_limit_counters := rate_limit_counters s;
     last_checkpoint_time := last_checkpoint_time s;
     disk := v |}.

(** [rate_limit_counters["success"] = v] and the same for ["failure"]. *)
Definition set_success (v : Z) (c : counters) : counters :=
  {| success := v; failure := failure c |}.
Definition set_failure (v : Z) (c : counters) : counters :=
  {| success := success c; failure := v |}.

(** ** [_adjust_delay] *)

Definition success_ratio (c : counters) : Q :=
  (inject_Z (success c) / inject_Z (pymaxZ 1 (success c + failure c)))%Q.

Definition _adjust_delay (ok : bool) (s : extractor) : extractor :=
  if ok then
    if Qltb 0.85 (success_ratio (rate_limit_counters s))
       && (30 <? success (rate_limit_counters s))
    then
      set_rate_limit_counters
        (set_failure 2 (set_success 15 (rate_limit_counters s)))
        (set_adaptive_delay
           (pymax (min_adaptive_delay s) (adaptive_delay s * 0.97)%Q) s)
    else s
  else
    set_rate_limit_counters (set_success 0 (rate_limit_counters s))
      (set_adaptive_delay
         (pymin (max_adaptive_delay s) (adaptive_delay s * 1.5)%Q) s).

(** ** The priority queue

    [prefix_queue] holds the items that were put and not yet taken; [put]
    adds one, [queue_get] takes the smallest tuple: by priority, then by
    prefix. *)

Abbreviation item := (Z * list N)%type (only parsing).

Definition put (it : item) (s : extractor) : extractor :=
  set_prefix_queue (prefix_queue s ++ [it]) s.

Definition item_ltb (a b : item) : bool :=
  (a.1 <? b.1) || ((a.1 =? b.1) && PyStr.ltb a.2 b.2).

Fixpoint queue_min (x : item) (q : list item) : item :=
  match q with
  | [] => x
  | y :: q' => queue_min (if item_ltb y x then y else x) q'
  end.

Fixpoint remove_first (x : item) (q : list item) : list item :=
  match q with
  | [] => []
  | y :: q' => if decide (y = x) then q' else y :: remove_first x q'
  end.

Definition queue_get (q : list item) : option (item * list item) :=
  match q with
  | [] => None
  | x :: q' => let m := queue_min x q' in Some (m, remove_first m q)
  end.

(** ** Checkpoints *)

(** [writable] is whether writing the file succeeds.  When it does not,
    the exception is caught: the file and the object are left as they were
    and the result is [False]. *)
Definition _save_checkpoint (writable : bool) (s : extractor)
    : extractor * bool :=
  if writable then
    (set_disk
       (Some {| cp_discovered_names := elements (discovered_names s);
                cp_explored_prefixes := elements (explored_prefixes s);
                cp_request_count := request_count s |}) s,
     true)
  else (s, false).

(** [prefix_by_length]: the explored prefixes grouped by length, each group
    in the order of the iteration. *)
Definition group_by_length (prefixes : list pystr) : gmap nat (list pystr) :=
  foldl (fun m prefix =>
           <[length prefix := default [] (m !! length prefix) ++ [prefix]]> m)
        ∅ prefixes.

Definition sorted_keys (m : gmap nat (list pystr)) : list nat :=
  merge_sort Nat.le (elements (dom m)).

(** The innermost loop of [_load_checkpoint]: the extensions of one explored
    prefix by the characters of [charset]. *)
Definition requeue_prefix (prefix_len : nat) (prefix : pystr)
    (s : extractor) : extractor :=
  foldl (fun s char =>
           let new_prefix := prefix ++ [char] in
           if decide (new_prefix ∈ explored_prefixes s) then s
           else put (Z.of_nat prefix_len + 1, new_prefix) s)
        s charset.

Definition _load_checkpoint (s : extractor) : extractor * bool :=
  match disk s with
  | None => (s, false)
  | Some checkpoint_data =>
      let s1 :=
        set_discovered_names
          (list_to_set (cp_discovered_names checkpoint_data)) s in
      let s2 :=
        set_explored_prefixes
          (list_to_set (cp_explored_prefixes checkpoint_data)) s1 in
      let s3 := set_request_count (cp_request_count checkpoint_data) s2 in
      let prefix_by_length :=
        group_by_length (elements (explored_prefixes s3)) in
      (foldl (fun s prefix_len =>
                foldl (fun s prefix => requeue_prefix prefix_len prefix s)
                      s (default [] (prefix_by_length !! prefix_len)))
             s3 (sorted_keys prefix_by_length),
       true)
  end.

(** ** [get_autocomplete_suggestions] *)

(** What one request meets.  [GetRaises] is [session.get] raising;
    [Response] carries the status code, what [time.time()] reads under
    [request_count_lock], whether a write of the checkpoint file succeeds at
    this request, and what [response.json()] gives: an exception, a
    dictionary whose ["results"] is a list, or anything else. *)
Inductive exception := RequestException | OtherException.
Inductive json := ResultsList (results : list pystr) | OtherJson.
Inductive outcome :=
| GetRaises (e : exception)
| Response (status_code : Z) (current_time : Q) (writable : bool)
    (data : exception + json).

(** The service: the outcome of the request for [query] at [retry_count]. *)
Definition service := pystr -> nat -> outcome.

(** How one invocation ends before the test [retry_count < max_retries]:
    with a value to return, or in a branch that retries while it may. *)
Inductive attempt_result :=
| Done (suggestions : list pystr)
| Retryable.

(** The block under [request_count_lock].  With a zero
    [checkpoint_interval] the remainder raises [ZeroDivisionError] after the
    increment.  The result of [_save_checkpoint] is not looked at:
    [last_checkpoint_time] is set whether the write succeeded or not. *)
Definition count_request (current_time : Q) (writable : bool) (s : extractor)
    : extractor * option exception :=
  let s1 := set_request_count (request_count s + 1) s in
  if checkpoint_interval s1 =? 0 then (s1, Some OtherException)
  else if (request_count s1 mod checkpoint_interval s1 =? 0)
          || Qltb 300 (current_time - last_checkpoint_time s1)
       then
         (set_last_checkpoint_time current_time
            (_save_checkpoint writable s1).1, None)
       else (s1, None).

Definition incr_success (s : extractor) : extractor :=
  set_rate_limit_counters
    (set_success (success (rate_limit_counters s) + 1) (rate_limit_counters s))
    s.
Definition incr_failure (s : extractor) : extractor :=
  set_rate_limit_counters
    (set_failure (failure (rate_limit_counters s) + 1) (rate_limit_counters s))
    s.

(** The two [except] clauses. *)
Definition handle (e : exception) (s : extractor)
    : extractor * attempt_result :=
  match e with
  | RequestException => (s, Retryable)
  | OtherException => (s, Done [])
  end.

(** The body of one invocation. *)
Definition attempt (o : outcome) (s : extractor)
    : extractor * attempt_result :=
  match o with
  | GetRaises e => handle e s
  | Response status_code current_time writable data =>
      match count_request current_time writable s with
      | (s1, Some e) => handle e s1
      | (s1, None) =>
          if status_code =? 429 then
            (_adjust_delay false (incr_failure s1), Retryable)
          else if negb (status_code =? 200) then
            if status_code >=? 500 then (s1, Retryable) else (s1, Done [])
          else
            match data with
            | inl e => handle e s1
            | inr (ResultsList suggestions) =>
                (_adjust_delay true (incr_success s1), Done suggestions)
            | inr OtherJson => (s1, Done [])
            end
      end
  end.

(** The recursion, on the number of retries that remain. *)
Fixpoint fetch (retries_left : nat) (srv : service) (query : pystr)
    (retry_count : nat) (s : extractor) : extractor * list pystr :=
  match attempt (srv query retry_count) s with
  | (s1, Done suggestions) => (s1, suggestions)
  | (s1, Retryable) =>
      match retries_left with
      | S n => fetch n srv query (S retry_count) s1
      | O => (s1, [])
      end
  end.

Definition get_autocomplete_suggestions (srv : service) (query : pystr)
    (retry_count max_retries : nat) (s : extractor)
    : extractor * list pystr :=
  fetch (max_retries - retry_count) srv query retry_count s.

(** ** [explore_prefix] *)

(** How a block ends: normally, or by an exception that leaves it. *)
Inductive completion := Normal | Raised.

Definition priority_boost (c : char) : Z :=
  if contains c charset then 5 else 10.

(** The body shared by the two loops over [full_charset]: queue
    [prefix + c] unless it is explored. *)
Definition enqueue_child (prefix : pystr) (prefix_len : Z) (c : char)
    (s : extractor) : extractor :=
  let new_prefix := prefix ++ [c] in
  if decide (new_prefix ∈ explored_prefixes s) then s
  else put (prefix_len + priority_boost c, new_prefix) s.

(** The expansion step: [explore_prefix] from the line after the fetch.
    [suggestions[-1]] raises [IndexError] on an empty list. *)
Definition expand (prefix : pystr) (suggestions : list pystr)
    (s : extractor) : extractor * completion :=
  let s1 :=
    set_discovered_names
      (foldl (fun names name => {[name]} ∪ names) (discovered_names s)
             suggestions) s in
  if len suggestions =? max_results s1 then
    match last suggestions with
    | None => (s1, Raised)
    | Some last_result =>
        let prefix_len := len prefix in
        if prefix_len <? len last_result then
          match last_result !! length prefix with
          | None => (s1, Raised)
          | Some next_char =>
              let next_prefix := prefix ++ [next_char] in
              let s2 :=
                if decide (next_prefix ∈ explored_prefixes s1) then s1
                else put (prefix_len, next_prefix) s1 in
              (foldl (fun s c =>
                        if N.ltb next_char c
                        then enqueue_child prefix prefix_len c s
                        else s)
                     s2 full_charset,
               Normal)
          end
        else
          (foldl (fun s c => enqueue_child prefix prefix_len c s)
                 s1 full_charset,
           Normal)
    end
  else (s1, Normal).

Definition explore_prefix (srv : service) (prefix : pystr) (s : extractor)
    : extractor * completion :=
  let '(s1, suggestions) := get_autocomplete_suggestions srv prefix 0 8 s in
  expand prefix suggestions s1.

(** ** [worker] *)

Inductive loop_control := Continue | Break.

(** One turn of the [while True] loop.  An empty queue is the [queue.Empty]
    of the timed [get]; the queue is then still empty and the loop ends. *)
Definition worker_iteration (srv : service) (s : extractor)
    : extractor * loop_control :=
  match queue_get (prefix_queue s) with
  | None => (s, Break)
  | Some ((priority, prefix), q) =>
      let s1 := set_prefix_queue q s in
      if decide (prefix ∈ explored_prefixes s1) then (s1, Continue)
      else
        match explore_prefix srv prefix s1 with
        | (s2, Normal) =>
            (set_explored_prefixes ({[prefix]} ∪ explored_prefixes s2) s2,
             Continue)
        | (s2, Raised) => (s2, Continue)
        end
  end.

(** The loop, for at most [turns] turns; [None] when it has not ended by
    then.  Each turn has its own service answers. *)
Fixpoint worker (turns : nat) (srv : nat -> service) (s : extractor)
    : option extractor :=
  match turns with
  | O => None
  | S n =>
      match worker_iteration (srv n) s with
      | (s1, Break) => Some s1
      | (s1, Continue) => worker n srv s1
      end
  end.

(** The items a step added to the queue. *)
Definition enqueued (s s' : extractor) : list item :=
  drop (length (prefix_queue s)) (prefix_queue s').

(** ** Running the definitions *)

Definition answers (page : list pystr) : service :=
  fun _ _ => Response 200 0 true (inr (ResultsList page)).

Definition fresh (max_results : Z) : extractor := init max_results 1 200 None 0.

(** * Vocabulary of the statements *)

(** ** Frame of a fetch *)

(** The fields of the crawl proper: a fetch changes none of them. *)
Definition same_crawl (s s' : extractor) : Prop :=
  max_results s' = max_results s
  ∧ checkpoint_interval s' = checkpoint_interval s
  ∧ discovered_names s' = discovered_names s
  ∧ explored_prefixes s' = explored_prefixes s
  ∧ prefix_queue s' = prefix_queue s
  ∧ max_adaptive_delay s' = max_adaptive_delay s
  ∧ min_adaptive_delay s' = min_adaptive_delay s.

(** ** Expansion *)

(** The items a loop over [cs] puts: one for each character that passes
    [keep] and whose extension of [prefix] is not explored. *)
Definition child_items (keep : char -> bool) (prefix : pystr)
    (explored : gset pystr) (cs : pystr) : list item :=
  map (fun c => (len prefix + priority_boost c, prefix ++ [c]))
      (filter (fun c : char => keep c = true ∧ prefix ++ [c] ∉ explored) cs).

(** The item of the pivot child. *)
Definition pivot_item (prefix : pystr) (explored : gset pystr)
    (pivot : char) : list item :=
  if decide (prefix ++ [pivot] ∈ explored) then []
  else [(len prefix, prefix ++ [pivot])].

(** The priority of the sibling [prefix + c]: the prefix length plus five
    for a digit or a letter, plus ten for a punctuation character. *)
Definition sibling_priority (prefix : pystr) (c : char) (prio : Z) : Prop :=
  (c ∈ charset ∧ prio = len prefix + 5)
  ∨ (c ∈ special_charset ∧ prio = len prefix + 10).

(** The position of a character in [full_charset], the order in which the
    characters are configured: digits, letters, punctuation. *)
Fixpoint position (c : char) (l : pystr) : option nat :=
  match l with
  | [] => None
  | x :: l' => if N.eqb x c then Some O else S <$> position c l'
  end.

Definition charset_ltb (a b : char) : bool :=
  match position a full_charset, position b full_charset with
  | Some i, Some j => Nat.ltb i j
  | _, _ => false
  end.

(** The claim as the specification words it, for one fetch: the pivot child
    is enqueued and no enqueued item comes before it, and the siblings
    enqueued are those of the characters after the pivot in the order of the
    charset. *)
Definition pivot_claim (srv : service) (prefix : pystr) (s : extractor)
    : Prop :=
  forall s1 suggestions last_result pivot s',
    get_autocomplete_suggestions srv prefix 0 8 s = (s1, suggestions) ->
    len suggestions = max_results s ->
    last suggestions = Some last_result ->
    last_result !! length prefix = Some pivot ->
    (explore_prefix srv prefix s).1 = s' ->
    (exists prio,
        (prio, prefix ++ [pivot]) ∈ enqueued s s'
        ∧ forall it, it ∈ enqueued s s' -> prio <= it.1)
    ∧ (forall c, c ∈ full_charset -> c ≠ pivot ->
         (exists prio, (prio, prefix ++ [c]) ∈ enqueued s s')
         <-> charset_ltb pivot c = true).

(** The claim as the specification words it, for one fetch: every character
    of the charset gets its child enqueued, and all the items enqueued have
    one and the same priority. *)
Definition fallback_claim (srv : service) (prefix : pystr) (s : extractor)
    : Prop :=
  forall s1 suggestions last_result s',
    get_autocomplete_suggestions srv prefix 0 8 s = (s1, suggestions) ->
    len suggestions = max_results s ->
    last suggestions = Some last_result ->
    length last_result = length prefix ->
    (explore_prefix srv prefix s).1 = s' ->
    (forall c, c ∈ full_charset ->
       exists prio, (prio, prefix ++ [c]) ∈ enqueued s s')
    ∧ (exists prio, forall it, it ∈ enqueued s s' -> it.1 = prio).

(** ** Adaptive delay *)

(** The condition of the decay, in integers: the successes are more than
    85 % of the reports counted, that count taken as one when it is not
    positive, and more than thirty successes are counted. *)
Definition decays (c : counters) : Prop :=
  85 * Z.max 1 (success c + failure c) < 100 * success c ∧ 30 < success c.


(** A report to the controller, as the fetch makes it: the counter of the
    outcome is incremented, then the delay adjusted. *)
Definition report (ok : bool) (s : extractor) : extractor :=
  if ok then _adjust_delay true (incr_success s)
  else _adjust_delay false (incr_failure s).

Definition reports (l : list bool) (s : extractor) : extractor :=
  foldl (fun s ok => report ok s) s l.

Definition delay_in_bounds (s : extractor) : Prop :=
  (min_adaptive_delay s <= adaptive_delay s)%Q
  ∧ (adaptive_delay s <= max_adaptive_delay s)%Q.

(** The claim as the specification words it: whatever the object was built
    with, the delay is within the bounds after any sequence of reports. *)
Definition delay_bounds_claim (max_results : Z) (rate_limit_delay : Q)
    (checkpoint_interval : Z) (l : list bool) : Prop :=
  forall now : Q,
    delay_in_bounds
      (reports l
         (init max_results rate_limit_delay checkpoint_interval None now)).

(** The invariant of the reports: the bounds are in order, the minimum is
    not negative, and the delay lies between them. *)
Definition delay_invariant (s : extractor) : Prop :=
  (0 <= min_adaptive_delay s)%Q ∧ delay_in_bounds s.

(** ** Outcomes and reports of a fetch *)

(** What the controller consists of. *)
Definition controller (s : extractor) : Q * Q * Q * counters :=
  (adaptive_delay s, min_adaptive_delay s, max_adaptive_delay s,
   rate_limit_counters s).

(** Whether the branch an outcome leads to retries while it may. *)
Definition retryable (o : outcome) : bool :=
  match o with
  | GetRaises RequestException => true
  | GetRaises OtherException => false
  | Response status_code _ _ data =>
      if status_code =? 429 then true
      else if negb (status_code =? 200) then status_code >=? 500
      else match data with inl RequestException => true | _ => false end
  end.

(** The outcomes a fetch meets, in order: it goes on to the next request
    after a retryable outcome, while retries are left. *)
Fixpoint observed (retries_left : nat) (srv : service) (query : pystr)
    (retry_count : nat) : list outcome :=
  let o := srv query retry_count in
  o :: (if retryable o then
          match retries_left with
          | S n => observed n srv query (S retry_count)
          | O => []
          end
        else []).

(** The reports of one outcome, in the code: a failure report for a 429, a
    success report for a 200 with a list of results, none otherwise. *)
Definition reports_of (o : outcome) : list bool :=
  match o with
  | Response status_code _ _ data =>
      if status_code =? 429 then [false]
      else if status_code =? 200 then
        match data with inr (ResultsList _) => [true] | _ => [] end
      else []
  | GetRaises _ => []
  end.

(** The reports of one outcome, in the specification: a failure report also
    for a status of 500 and above and for a transport error. *)
Definition claimed_reports_of (o : outcome) : list bool :=
  match o with
  | Response status_code _ _ data =>
      if (status_code =? 429) || (status_code >=? 500) then [false]
      else if status_code =? 200 then
        match data with inr (ResultsList _) => [true] | _ => [] end
      else []
  | GetRaises RequestException => [false]
  | GetRaises OtherException => []
  end.

(** The claim as the specification words it, for one fetch: the controller
    ends as after one failure report for each 429, each status of 500 and
    above and each transport error met, and one success report for a 200
    with a list of results. *)
Definition fetch_reports_claim (srv : service) (query : pystr)
    (max_retries : nat) (s : extractor) : Prop :=
  controller (get_autocomplete_suggestions srv query 0 max_retries s).1
  = controller
      (reports (flat_map claimed_reports_of (observed max_retries srv query 0))
         s).

(** A service that answers 503 once and then a page of one name. *)
Definition once_unavailable : service :=
  fun _ retry_count =>
    match retry_count with
    | O => Response 503 0 true (inr OtherJson)
    | S _ => Response 200 0 true (inr (ResultsList [str "ab"]))
    end.

(** Three 429 responses, then a 200 with a page. *)
Definition thrice_limited : service :=
  fun _ retry_count =>
    if (retry_count <? 3)%nat then Response 429 0 true (inr OtherJson)
    else Response 200 0 true (inr (ResultsList [str "ab"; str "ac"])).

(** The outcomes that count as a failure of the request: a 429, a status of
    500 and above, a transport error. *)
Definition is_failure (o : outcome) : Prop :=
  match o with
  | GetRaises RequestException => True
  | GetRaises OtherException => False
  | Response status_code _ _ _ => status_code = 429 ∨ 500 <= status_code
  end.

(** A service that is rate limited for ever. *)
Definition always_limited : service :=
  fun _ _ => Response 429 0 true (inr OtherJson).

(** ** Worker *)

(** An object resumed with "a" explored and "a" still queued. *)
Definition resumed : extractor :=
  set_prefix_queue [(1, str "a")]
    (set_explored_prefixes {[str "a"]} (fresh 2)).

(** ** Checkpoint *)

(** The items [_load_checkpoint] queues for one explored prefix. *)
Definition requeue_items (prefix_len : nat) (prefix : pystr)
    (explored : gset pystr) (cs : pystr) : list item :=
  map (fun c => (Z.of_nat prefix_len + 1, prefix ++ [c]))
      (filter (fun c : char => prefix ++ [c] ∉ explored) cs).

(** The number of characters of [charset] whose extension of [prefix] is
    not explored. *)
Definition open_extensions (explored : gset pystr) (prefix : pystr) : nat :=
  length (filter (fun c : char => prefix ++ [c] ∉ explored) charset).

(** All the prefixes of the groups. *)
Definition grouped (m : gmap nat (list pystr)) : list pystr :=
  map_to_list m ≫= snd.

(** The pairs of an explored prefix and a character of the attribute
    [charset] (digits and lowercase letters, no punctuation) whose extension
    is not explored, counted. *)
Definition unexplored_extensions (explored : gset pystr) : nat :=
  length
    (filter (fun pc : pystr * char => pc.1 ++ [pc.2] ∉ explored)
       (list_prod (elements explored) charset)).

(** The count as the specification words it: over the characters of the
    configured charset, punctuation included. *)
Definition claimed_extensions (explored : gset pystr) : nat :=
  length
    (filter (fun pc : pystr * char => pc.1 ++ [pc.2] ∉ explored)
       (list_prod (elements explored) full_charset)).

(** The claim as the specification words it, for an object that saves and a
    newly built one that loads: names and explored prefixes come back, and
    the queue has [claimed_extensions] items. *)
Definition round_trip_claim (s : extractor) : Prop :=
  exists s',
    _load_checkpoint (init 100 1.0 200 (disk (_save_checkpoint true s).1) 0)
    = (s', true)
    ∧ discovered_names s' = discovered_names s
    ∧ explored_prefixes s' = explored_prefixes s
    ∧ length (prefix_queue s') = claimed_extensions (explored_prefixes s).

(** * The rest of the object *)

(** ** The start of [crawl_autocomplete] *)

(** The checkpoint is loaded; when there is none, the one-character
    prefixes are queued, those of [charset] at priority 1 and then those of
    [special_charset] at priority 2. *)
Definition crawl_start (s : extractor) : extractor :=
  match _load_checkpoint s with
  | (s1, true) => s1
  | (s1, false) =>
      foldl (fun s first_char => put (2, [first_char]) s)
        (foldl (fun s first_char => put (1, [first_char]) s) s1 charset)
        special_charset
  end.

(** ** [save_results] *)

(** The dictionary that is dumped; [sorted] is the sort by the order of
    strings. *)
Record results := {
  total_requests : Z;
  total_names : Z;
  names : list (list N)
}.

Definition pystr_le (a b : pystr) : Prop := PyStr.ltb b a = false.

Definition pystr_le_dec : RelDecision pystr_le :=
  fun a b => decide (PyStr.ltb b a = false).
#[local] Existing Instance pystr_le_dec.

Definition save_results (s : extractor) : results :=
  {| total_requests := request_count s;
     total_names := Z.of_nat (size (discovered_names s));
     names := merge_sort pystr_le (elements (discovered_names s)) |}.

(** ** The pause of a worker *)

(** The value a worker sleeps for after the prefix it has processed. *)
Definition worker_pause (prefix : pystr) (s : extractor) : Q :=
  if 3 <? len prefix
  then pymax (min_adaptive_delay s) (adaptive_delay s * 0.8)%Q
  else adaptive_delay s.

(** ** Vocabulary of the further statements *)

(** The checkpoint on disk is not ahead of the object: what it records is
    among the names and the explored prefixes of the object, and its count
    of requests is not above the object's. *)
Definition checkpoint_behind (s : extractor) : Prop :=
  match disk s with
  | None => True
  | Some cp =>
      (forall name, name ∈ cp_discovered_names cp -> name ∈ discovered_names s)
      ∧ (forall prefix,
           prefix ∈ cp_explored_prefixes cp -> prefix ∈ explored_prefixes s)
      ∧ cp_request_count cp <= request_count s
  end.

(** The snapshot [_save_checkpoint] takes of an object. *)
Definition snapshot (s : extractor) : checkpoint_data :=
  {| cp_discovered_names := elements (discovered_names s);
     cp_explored_prefixes := elements (explored_prefixes s);
     cp_request_count := request_count s |}.

(** The state after at most [turns] turns of the loop of a worker: where
    the loop has ended, the state it ended in. *)
Fixpoint after_turns (turns : nat) (srv : nat -> service) (s : extractor)
    : extractor :=
  match turns with
  | O => s
  | S n =>
      match worker_iteration (srv n) s with
      | (s1, Break) => s1
      | (s1, Continue) => after_turns n srv s1
      end
  end.

(** * Properties *)

Example special_charset_value :
  special_charset = str "!#$%&()*+,-./:;<=>?@[]^_`{|}~".
Proof. reflexivity. Qed.

(** ** What a fetch leaves alone *)

#[local] Arguments _adjust_delay : simpl never.
#[local] Arguments incr_success : simpl never.
#[local] Arguments incr_failure : simpl never.
#[local] Arguments count_request : simpl never.
#[local] Arguments priority_boost : simpl never.
#[local] Arguments charset : simpl never.
#[local] Arguments full_charset : simpl never.

Lemma same_crawl_refl s : same_crawl s s.
Proof. by repeat split. Qed.

Lemma same_crawl_trans s1 s2 s3 :
  same_crawl s1 s2 -> same_crawl s2 s3 -> same_crawl s1 s3.
Proof.
  unfold same_crawl.
  intros (?&?&?&?&?&?&?) (?&?&?&?&?&?&?). repeat split; congruence.
Qed.

Lemma adjust_delay_same_crawl ok s : same_crawl s (_adjust_delay ok s).
Proof.
  unfold _adjust_delay.
  destruct ok; [destruct (_ && _)|]; by repeat split.
Qed.

Lemma count_request_same_crawl current_time writable s :
  same_crawl s (count_request current_time writable s).1.
Proof.
  unfold count_request; cbn.
  destruct (checkpoint_interval s =? 0); [by repeat split|].
  destruct (_ || _); [destruct writable|]; by repeat split.
Qed.

Lemma handle_state e s : (handle e s).1 = s.
Proof. by destruct e. Qed.

Lemma attempt_same_crawl o s : same_crawl s (attempt o s).1.
Proof.
  destruct o as [e|status_code current_time writable data]; cbn.
  { rewrite handle_state. apply same_crawl_refl. }
  pose proof (count_request_same_crawl current_time writable s) as H1.
  destruct (count_request current_time writable s) as [s1 [e|]]; cbn in *.
  { by rewrite handle_state. }
  destruct (status_code =? 429); cbn.
  { eapply same_crawl_trans; [exact H1|].
    eapply same_crawl_trans; [|apply adjust_delay_same_crawl].
    by repeat split. }
  destruct (status_code =? 200); cbn.
  - destruct data as [e|[suggestions|]]; cbn; [by rewrite handle_state | | done].
    eapply same_crawl_trans; [exact H1|].
    eapply same_crawl_trans; [|apply adjust_delay_same_crawl].
    by repeat split.
  - by destruct (status_code >=? 500).
Qed.

Lemma fetch_same_crawl n srv query retry_count s :
  same_crawl s (fetch n srv query retry_count s).1.
Proof.
  revert retry_count s.
  induction n as [|n IH]; intros retry_count s; cbn;
    pose proof (attempt_same_crawl (srv query retry_count) s) as H1;
    destruct (attempt (srv query retry_count) s) as [s1 [l|]]; cbn in *;
    try done.
  eapply same_crawl_trans; [exact H1|apply IH].
Qed.

Lemma get_autocomplete_suggestions_same_crawl srv query rc mr s s1 l :
  get_autocomplete_suggestions srv query rc mr s = (s1, l) ->
  same_crawl s s1.
Proof.
  intros H. unfold get_autocomplete_suggestions in H.
  pose proof (fetch_same_crawl (mr - rc) srv query rc s) as H1.
  by rewrite H in H1.
Qed.

(** ** The expansion step *)

Lemma record_names (X : gset pystr) (l : list pystr) :
  foldl (fun names name => {[name]} ∪ names) X l = X ∪ list_to_set l.
Proof.
  revert X. induction l as [|x l IH]; intros X; cbn.
  - by rewrite (right_id_L ∅ (∪)).
  - by rewrite IH, (comm_L (∪) {[x]} X), (assoc_L (∪)).
Qed.

Lemma enqueued_app s q :
  enqueued s (set_prefix_queue (prefix_queue s ++ q) s) = q.
Proof. unfold enqueued; cbn. by rewrite drop_app_length. Qed.

Lemma enqueued_same s s' :
  prefix_queue s' = prefix_queue s -> enqueued s s' = [].
Proof. intros H. unfold enqueued. rewrite H. apply drop_all. Qed.

(** A page whose size is not [max_results] is recorded and nothing more. *)
Lemma expand_other_size prefix suggestions s :
  len suggestions ≠ max_results s ->
  expand prefix suggestions s =
    (set_discovered_names (discovered_names s ∪ list_to_set suggestions) s,
     Normal).
Proof.
  intros H. unfold expand. cbn.
  destruct (Z.eqb_spec (len suggestions) (max_results s)); [done|].
  by rewrite record_names.
Qed.

Lemma explore_prefix_other_size srv prefix s s1 suggestions :
  get_autocomplete_suggestions srv prefix 0 8 s = (s1, suggestions) ->
  len suggestions ≠ max_results s ->
  exists s',
    explore_prefix srv prefix s = (s', Normal)
    ∧ discovered_names s' = discovered_names s ∪ list_to_set suggestions
    ∧ (forall name, name ∈ suggestions -> name ∈ discovered_names s')
    ∧ prefix_queue s' = prefix_queue s
    ∧ enqueued s s' = [].
Proof.
  intros Hf Hlen.
  destruct (get_autocomplete_suggestions_same_crawl _ _ _ _ _ _ _ Hf)
    as (Hm & _ & Hn & _ & Hq & _).
  unfold explore_prefix. rewrite Hf.
  rewrite expand_other_size by congruence.
  eexists; split; [reflexivity|]. cbn.
  rewrite Hn, Hq. repeat split; [|by apply enqueued_same].
  intros name Hin. by apply elem_of_union_r, elem_of_list_to_set.
Qed.

Lemma set_prefix_queue_id s : set_prefix_queue (prefix_queue s) s = s.
Proof. by destruct s. Qed.

Lemma foldl_enqueue (f : extractor -> char -> extractor)
    (keep : char -> bool) (prefix cs : pystr) (s : extractor) :
  (forall s c,
     f s c = if keep c then enqueue_child prefix (len prefix) c s else s) ->
  foldl f s cs =
    set_prefix_queue
      (prefix_queue s ++ child_items keep prefix (explored_prefixes s) cs) s.
Proof.
  intros Hf. revert s.
  induction cs as [|c cs IH]; intros s.
  - unfold child_items; cbn. rewrite app_nil_r. by rewrite set_prefix_queue_id.
  - change (foldl f s (c :: cs)) with (foldl f (f s c) cs).
    rewrite IH, Hf. unfold child_items. rewrite filter_cons.
    destruct (keep c) eqn:Hk; unfold enqueue_child; cbn.
    + destruct (decide (prefix ++ [c] ∈ explored_prefixes s)) as [Hin|Hin].
      * rewrite decide_False by (intros [_ ?]; done). done.
      * rewrite decide_True by done. cbn. by rewrite <- app_assoc.
    + rewrite decide_False by (intros [? _]; done). done.
Qed.

Lemma elem_of_child_items (keep : char -> bool) (prefix : pystr)
    (explored : gset pystr) (cs : pystr) (prio : Z) (child : pystr) :
  (prio, child) ∈ child_items keep prefix explored cs <->
  exists c, c ∈ cs ∧ (keep c = true) ∧ (child = prefix ++ [c])
            ∧ (child ∉ explored) ∧ (prio = len prefix + priority_boost c).
Proof.
  unfold child_items. rewrite list_elem_of_fmap. split.
  - intros (c & Heq & Hc). apply list_elem_of_filter in Hc as [[Hk Hx] Hc].
    inversion Heq; subst. eauto 10.
  - intros (c & Hc & Hk & -> & Hx & ->). exists c. split; [done|].
    apply list_elem_of_filter. done.
Qed.

Lemma priority_boost_pos c : 0 < priority_boost c.
Proof. unfold priority_boost. destruct (contains c charset); lia. Qed.

Lemma expand_pivot prefix suggestions s last_result pivot :
  len suggestions = max_results s ->
  last suggestions = Some last_result ->
  last_result !! length prefix = Some pivot ->
  expand prefix suggestions s =
    (set_prefix_queue
       (prefix_queue s
          ++ pivot_item prefix (explored_prefixes s) pivot
          ++ child_items (N.ltb pivot) prefix (explored_prefixes s)
               full_charset)
       (set_discovered_names (discovered_names s ∪ list_to_set suggestions)
          s),
     Normal).
Proof.
  intros Hlen Hlast Hpivot. unfold expand. cbn.
  rewrite (proj2 (Z.eqb_eq _ _) Hlen), Hlast, record_names.
  apply lookup_lt_Some in Hpivot as Hlt.
  rewrite (proj2 (Z.ltb_lt (len prefix) (len last_result)))
    by (unfold len; lia).
  rewrite Hpivot. f_equal.
  rewrite (foldl_enqueue _ (N.ltb pivot) prefix) by done.
  unfold pivot_item.
  destruct (decide (prefix ++ [pivot] ∈ explored_prefixes s)); cbn; [done|].
  by rewrite <- app_assoc.
Qed.

Lemma expand_fallback prefix suggestions s last_result :
  len suggestions = max_results s ->
  last suggestions = Some last_result ->
  (length last_result <= length prefix)%nat ->
  expand prefix suggestions s =
    (set_prefix_queue
       (prefix_queue s
          ++ child_items (fun _ => true) prefix (explored_prefixes s)
               full_charset)
       (set_discovered_names (discovered_names s ∪ list_to_set suggestions)
          s),
     Normal).
Proof.
  intros Hlen Hlast Hle. unfold expand. cbn.
  rewrite (proj2 (Z.eqb_eq _ _) Hlen), Hlast, record_names.
  rewrite (proj2 (Z.ltb_ge (len prefix) (len last_result)))
    by (unfold len; lia).
  f_equal. by rewrite (foldl_enqueue _ (fun _ => true) prefix).
Qed.

Lemma contains_elem_of (c : char) (l : pystr) :
  contains c l = true <-> c ∈ l.
Proof.
  unfold contains. rewrite existsb_exists, list_elem_of_In. split.
  - by intros (x & Hx & ->%N.eqb_eq).
  - intros Hc. exists c. by rewrite N.eqb_refl.
Qed.

Lemma special_not_in_charset (c : char) :
  c ∈ special_charset -> contains c charset = false.
Proof.
  intros Hc.
  assert (Forall (fun c => contains c charset = false) special_charset)
    as Hall by (vm_compute; repeat constructor).
  by apply (proj1 (Forall_forall _ _) Hall).
Qed.

Lemma sibling_priority_boost (prefix : pystr) (c : char) (prio : Z) :
  c ∈ full_charset ∧ prio = len prefix + priority_boost c
  <-> sibling_priority prefix c prio.
Proof.
  unfold sibling_priority, priority_boost, full_charset.
  rewrite elem_of_app. split.
  - intros [[Hc|Hc] ->].
    + left. by rewrite (proj2 (contains_elem_of _ _) Hc).
    + right. by rewrite special_not_in_charset.
  - intros [[Hc ->]|[Hc ->]].
    + split; [by left|]. by rewrite (proj2 (contains_elem_of _ _) Hc).
    + split; [by right|]. by rewrite special_not_in_charset.
Qed.

Lemma explore_prefix_expand srv prefix s s1 suggestions :
  get_autocomplete_suggestions srv prefix 0 8 s = (s1, suggestions) ->
  explore_prefix srv prefix s = expand prefix suggestions s1
  ∧ same_crawl s s1.
Proof.
  intros Hf. unfold explore_prefix. rewrite Hf. split; [done|].
  by eapply get_autocomplete_suggestions_same_crawl.
Qed.

(** C2 (short page): when the fetch for a prefix returns fewer than
    [max_results] suggestions, [explore_prefix] ends normally, every
    returned suggestion is in [discovered_names] (which is the former set
    with the page added), and the queue is what it was: no child prefix is
    enqueued. *)
Theorem short_page_enqueues_nothing srv prefix s s1 suggestions :
  get_autocomplete_suggestions srv prefix 0 8 s = (s1, suggestions) ->
  len suggestions < max_results s ->
  exists s',
    explore_prefix srv prefix s = (s', Normal)
    ∧ discovered_names s' = discovered_names s ∪ list_to_set suggestions
    ∧ (forall name, name ∈ suggestions -> name ∈ discovered_names s')
    ∧ prefix_queue s' = prefix_queue s
    ∧ enqueued s s' = [].
Proof.
  intros Hf Hlt. eapply explore_prefix_other_size; [exact Hf | lia].
Qed.

Lemma short_page_witness :
  exists s',
    explore_prefix (answers [str "z"]) (str "z") (fresh 2) = (s', Normal)
    ∧ discovered_names s'
      = discovered_names (fresh 2) ∪ list_to_set [str "z"]
    ∧ (forall name, name ∈ [str "z"] -> name ∈ discovered_names s')
    ∧ prefix_queue s' = prefix_queue (fresh 2)
    ∧ enqueued (fresh 2) s' = [].
Proof.
  eapply (short_page_enqueues_nothing (answers [str "z"]) (str "z") (fresh 2)).
  - reflexivity.
  - reflexivity.
Defined.

(** C10 (oversized page): when the fetch returns strictly more than
    [max_results] suggestions, [explore_prefix] records all of them and
    enqueues no child prefix; only a page of exactly [max_results] items
    starts the expansion. *)
Theorem oversized_page_enqueues_nothing srv prefix s s1 suggestions :
  get_autocomplete_suggestions srv prefix 0 8 s = (s1, suggestions) ->
  max_results s < len suggestions ->
  exists s',
    explore_prefix srv prefix s = (s', Normal)
    ∧ discovered_names s' = discovered_names s ∪ list_to_set suggestions
    ∧ (forall name, name ∈ suggestions -> name ∈ discovered_names s')
    ∧ prefix_queue s' = prefix_queue s
    ∧ enqueued s s' = [].
Proof.
  intros Hf Hlt. eapply explore_prefix_other_size; [exact Hf | lia].
Qed.

Lemma oversized_page_witness :
  exists s',
    explore_prefix (answers [str "aa"; str "ab"; str "ac"]) (str "a")
      (fresh 2) = (s', Normal)
    ∧ discovered_names s'
      = discovered_names (fresh 2)
          ∪ list_to_set [str "aa"; str "ab"; str "ac"]
    ∧ (forall name,
         name ∈ [str "aa"; str "ab"; str "ac"] -> name ∈ discovered_names s')
    ∧ prefix_queue s' = prefix_queue (fresh 2)
    ∧ enqueued (fresh 2) s' = [].
Proof.
  eapply (oversized_page_enqueues_nothing
            (answers [str "aa"; str "ab"; str "ac"]) (str "a") (fresh 2)).
  - reflexivity.
  - reflexivity.
Defined.

(** ** The pivot branch *)

(** C1, as stated, fails: after the page ["aa", "ab"] for the prefix "a" the
    pivot is "b"; "!" comes after "b" in the charset, yet "a!" is not
    enqueued, because "!" has the smaller code point. *)
Lemma pivot_claim_counterexample :
  ~ pivot_claim (answers [str "aa"; str "ab"]) (str "a") (fresh 2).
Proof.
  intros H.
  destruct (H _ _ (str "ab") 98%N _ eq_refl eq_refl eq_refl eq_refl eq_refl)
    as [_ Hsib].
  destruct (proj2 (Hsib 33%N ltac:(by apply contains_elem_of) ltac:(done))
              eq_refl) as [prio Hin].
  assert (str "a!" ∈ (enqueued (fresh 2)
            (explore_prefix (answers [str "aa"; str "ab"]) (str "a")
               (fresh 2)).1).*2) as Hin2.
  { apply list_elem_of_fmap. by exists (prio, str "a!"). }
  revert Hin2. apply (bool_decide_eq_false_1 _). by vm_compute.
Qed.

(** C1 (pivot branch), amended.  When the fetch returns exactly
    [max_results] suggestions and the last one is longer than the prefix,
    [explore_prefix] ends normally with the page recorded, and the items it
    adds to the queue are exactly these, each only if the child is not in
    [explored_prefixes]: the pivot child [prefix + last[len(prefix)]] at
    priority [len(prefix)]; and [prefix + c] for every character [c] of
    [full_charset] whose code point is strictly greater than the pivot's, at
    priority [len(prefix) + 5] for a digit or letter and [len(prefix) + 10]
    for punctuation.  Hence every enqueued item other than the pivot item
    has a strictly larger priority number, and no sibling with a code point
    at or below the pivot's is enqueued. *)
Theorem pivot_expansion srv prefix s s1 suggestions last_result :
  get_autocomplete_suggestions srv prefix 0 8 s = (s1, suggestions) ->
  len suggestions = max_results s ->
  last suggestions = Some last_result ->
  (length prefix < length last_result)%nat ->
  exists pivot s',
    last_result !! length prefix = Some pivot
    ∧ explore_prefix srv prefix s = (s', Normal)
    ∧ (forall name, name ∈ suggestions -> name ∈ discovered_names s')
    ∧ prefix_queue s' = prefix_queue s ++ enqueued s s'
    ∧ (forall prio child,
         (prio, child) ∈ enqueued s s' <->
         (child ∉ explored_prefixes s)
         ∧ ((prio = len prefix ∧ child = prefix ++ [pivot])
            ∨ exists c, (pivot < c)%N ∧ child = prefix ++ [c]
                        ∧ sibling_priority prefix c prio))
    ∧ (forall prio child,
         (prio, child) ∈ enqueued s s' ->
         (prio = len prefix ∧ child = prefix ++ [pivot]) ∨ len prefix < prio)
    ∧ (forall prio c,
         (prio, prefix ++ [c]) ∈ enqueued s s' -> (pivot <= c)%N).
Proof.
  intros Hf Hlen Hlast Hlt.
  destruct (lookup_lt_is_Some_2 last_result (length prefix) Hlt)
    as [pivot Hpivot].
  destruct (explore_prefix_expand _ _ _ _ _ Hf)
    as (Heq & Hm & _ & Hn & Hx & Hq & _).
  exists pivot. eexists. split; [exact Hpivot|].
  assert (len suggestions = max_results s1) as Hlen1 by congruence.
  rewrite Heq, (expand_pivot prefix suggestions s1 _ _ Hlen1 Hlast Hpivot).
  split; [reflexivity|]. rewrite Hx, Hq. cbn.
  assert (forall prio child,
    (prio, child) ∈ pivot_item prefix (explored_prefixes s) pivot
                     ++ child_items (N.ltb pivot) prefix (explored_prefixes s)
                          full_charset <->
    (child ∉ explored_prefixes s)
    ∧ ((prio = len prefix ∧ child = prefix ++ [pivot])
       ∨ exists c, (pivot < c)%N ∧ child = prefix ++ [c]
                   ∧ sibling_priority prefix c prio)) as Hchar.
  { intros prio child.
    rewrite elem_of_app, elem_of_child_items. unfold pivot_item.
    split.
    - intros [Hp|(c & Hc & Hk & -> & Hx' & ->)].
      + destruct (decide _) as [|Hnot]; [by apply elem_of_nil in Hp|].
        apply list_elem_of_singleton in Hp. inversion Hp; subst. eauto.
      + split; [done|]. right. exists c. apply N.ltb_lt in Hk.
        repeat split; [done|]. by apply sibling_priority_boost.
    - intros [Hx' [[-> ->]|(c & Hk & -> & Hp)]].
      + left. rewrite decide_False by done. by apply list_elem_of_singleton.
      + right. apply sibling_priority_boost in Hp as [Hc ->].
        exists c. apply N.ltb_lt in Hk. done. }
  set (new := pivot_item _ _ _ ++ _) in *.
  assert (enqueued s
            (set_prefix_queue (prefix_queue s ++ new)
               (set_discovered_names
                  (discovered_names s1 ∪ list_to_set suggestions) s1))
          = new) as ->.
  { unfold enqueued; cbn. by rewrite drop_app_length. }
  split_and!.
  - intros name Hin. by apply elem_of_union_r, elem_of_list_to_set.
  - done.
  - exact Hchar.
  - intros prio child [_ [?|(c & _ & -> & [[_ ->]|[_ ->]])]]%Hchar;
      [by left | right; lia | right; lia].
  - intros prio c [_ [[_ Heq']|(c' & Hk & Heq' & _)]]%Hchar;
      apply app_inv_head in Heq'; inversion Heq'; subst; lia.
Qed.

Lemma pivot_expansion_witness :
  let srv := answers [str "aa"; str "ab"] in
  let prefix := str "a" in
  let s := fresh 2 in
  exists pivot s',
    str "ab" !! length prefix = Some pivot
    ∧ explore_prefix srv prefix s = (s', Normal)
    ∧ (forall name, name ∈ [str "aa"; str "ab"] -> name ∈ discovered_names s')
    ∧ prefix_queue s' = prefix_queue s ++ enqueued s s'
    ∧ (forall prio child,
         (prio, child) ∈ enqueued s s' <->
         (child ∉ explored_prefixes s)
         ∧ ((prio = len prefix ∧ child = prefix ++ [pivot])
            ∨ exists c, (pivot < c)%N ∧ child = prefix ++ [c]
                        ∧ sibling_priority prefix c prio))
    ∧ (forall prio child,
         (prio, child) ∈ enqueued s s' ->
         (prio = len prefix ∧ child = prefix ++ [pivot]) ∨ len prefix < prio)
    ∧ (forall prio c,
         (prio, prefix ++ [c]) ∈ enqueued s s' -> (pivot <= c)%N).
Proof.
  intros srv prefix s.
  eapply (pivot_expansion srv prefix s _ [str "aa"; str "ab"] (str "ab")).
  - reflexivity.
  - reflexivity.
  - reflexivity.
  - cbn. lia.
Defined.

(** ** The fallback branch *)

(** C4, as stated, fails: with [max_results = 1], after the page ["q"] for
    the prefix "q" the child "q0" is enqueued at priority 6 and the child
    "q!" at priority 11. *)
Lemma fallback_claim_counterexample :
  ~ fallback_claim (answers [str "q"]) (str "q") (fresh 1).
Proof.
  intros H.
  destruct (H _ _ (str "q") _ eq_refl eq_refl eq_refl eq_refl eq_refl)
    as [_ [prio Hprio]].
  assert (forall it : item,
            bool_decide
              (it ∈ enqueued (fresh 1)
                      (explore_prefix (answers [str "q"]) (str "q")
                         (fresh 1)).1) = true ->
            it.1 = prio) as Hall.
  { intros it Hit. apply Hprio. by apply bool_decide_eq_true_1 in Hit. }
  pose proof (Hall (6, str "q0") ltac:(by vm_compute)) as H6.
  pose proof (Hall (11, str "q!") ltac:(by vm_compute)) as H11.
  cbn in H6, H11. lia.
Qed.

(** C4 (fallback branch), amended.  When the fetch returns exactly
    [max_results] suggestions and the last one has the length of the prefix,
    [explore_prefix] ends normally with the page recorded, and the items it
    adds to the queue are exactly those of the children [prefix + c], [c] a
    character of [full_charset], that are not in [explored_prefixes]: at
    priority [len(prefix) + 5] when [c] is a digit or a letter, and at
    [len(prefix) + 10] when it is a punctuation character. *)
Theorem fallback_expansion srv prefix s s1 suggestions last_result :
  get_autocomplete_suggestions srv prefix 0 8 s = (s1, suggestions) ->
  len suggestions = max_results s ->
  last suggestions = Some last_result ->
  length last_result = length prefix ->
  exists s',
    explore_prefix srv prefix s = (s', Normal)
    ∧ (forall name, name ∈ suggestions -> name ∈ discovered_names s')
    ∧ prefix_queue s' = prefix_queue s ++ enqueued s s'
    ∧ (forall prio child,
         (prio, child) ∈ enqueued s s' <->
         (child ∉ explored_prefixes s)
         ∧ exists c, child = prefix ++ [c] ∧ sibling_priority prefix c prio)
    ∧ (forall c, c ∈ full_charset ->
         prefix ++ [c] ∉ explored_prefixes s ->
         exists prio, (prio, prefix ++ [c]) ∈ enqueued s s').
Proof.
  intros Hf Hlen Hlast Hsame.
  destruct (explore_prefix_expand _ _ _ _ _ Hf)
    as (Heq & Hm & _ & Hn & Hx & Hq & _).
  assert (len suggestions = max_results s1) as Hlen1 by congruence.
  eexists.
  rewrite Heq, (expand_fallback prefix suggestions s1 last_result Hlen1 Hlast)
    by lia.
  split; [reflexivity|]. rewrite Hx, Hq.
  set (new := child_items _ _ _ _).
  assert (enqueued s
            (set_prefix_queue (prefix_queue s ++ new)
               (set_discovered_names
                  (discovered_names s1 ∪ list_to_set suggestions) s1))
          = new) as ->.
  { unfold enqueued; cbn. by rewrite drop_app_length. }
  assert (forall prio child,
            (prio, child) ∈ new <->
            (child ∉ explored_prefixes s)
            ∧ exists c, child = prefix ++ [c]
                        ∧ sibling_priority prefix c prio) as Hchar.
  { intros prio child. unfold new. rewrite elem_of_child_items. split.
    - intros (c & Hc & _ & -> & Hx' & ->). split; [done|]. exists c.
      split; [done|]. by apply sibling_priority_boost.
    - intros [Hx' (c & -> & [Hc ->]%sibling_priority_boost)].
      by exists c. }
  cbn. split_and!.
  - intros name Hin. by apply elem_of_union_r, elem_of_list_to_set.
  - done.
  - exact Hchar.
  - intros c Hc Hx'. exists (len prefix + priority_boost c).
    apply Hchar. split; [done|]. exists c. split; [done|].
    by apply sibling_priority_boost.
Qed.

Lemma fallback_expansion_witness :
  let srv := answers [str "q"] in
  let prefix := str "q" in
  let s := fresh 1 in
  exists s',
    explore_prefix srv prefix s = (s', Normal)
    ∧ (forall name, name ∈ [str "q"] -> name ∈ discovered_names s')
    ∧ prefix_queue s' = prefix_queue s ++ enqueued s s'
    ∧ (forall prio child,
         (prio, child) ∈ enqueued s s' <->
         (child ∉ explored_prefixes s)
         ∧ exists c, child = prefix ++ [c] ∧ sibling_priority prefix c prio)
    ∧ (forall c, c ∈ full_charset ->
         prefix ++ [c] ∉ explored_prefixes s ->
         exists prio, (prio, prefix ++ [c]) ∈ enqueued s s').
Proof.
  intros srv prefix s.
  eapply (fallback_expansion srv prefix s _ [str "q"] (str "q")).
  - reflexivity.
  - reflexivity.
  - reflexivity.
  - reflexivity.
Defined.

(** ** The adaptive delay *)

Lemma Qltb_lt (x y : Q) : Qltb x y = true <-> (x < y)%Q.
Proof.
  unfold Qltb. rewrite negb_true_iff, <- not_true_iff_false, Qle_bool_iff.
  split; [apply Qnot_le_lt | apply Qlt_not_le].
Qed.








(** At 31 successes the decay depends on the failures counted: with five,
    the ratio is 31/36, above 85 %, and the delay is lowered; with six it is
    31/37, below, and with a hundred 31/131: the object is left as it is. *)
Example decay_depends_on_the_ratio :
  let at_failures f :=
    set_rate_limit_counters {| success := 31; failure := f |} (fresh 100) in
  decays {| success := 31; failure := 5 |}
  ∧ rate_limit_counters (_adjust_delay true (at_failures 5))
    = {| success := 15; failure := 2 |}
  ∧ (adaptive_delay (_adjust_delay true (at_failures 5%Z)) == 0.97)%Q
  ∧ ~ decays {| success := 31; failure := 6 |}
  ∧ _adjust_delay true (at_failures 6) = at_failures 6
  ∧ ~ decays {| success := 31; failure := 100 |}
  ∧ _adjust_delay true (at_failures 100) = at_failures 100.
Proof.
  cbv zeta. unfold decays. cbn [success failure].
  split_and!; try lia; by vm_compute.
Qed.

(** C5, as stated, fails: built with [rate_limit_delay = 0.5], the object
    starts with a delay of 0.5, and one failure report makes it 0.75, still
    under the minimum of 0.8. *)
Lemma delay_bounds_claim_counterexample :
  ~ delay_bounds_claim 100 0.5 200 [false].
Proof.
  intros H. destruct (H 0%Q) as [Hmin _]. vm_compute in Hmin. by apply Hmin.
Qed.

Lemma adjust_delay_invariant ok s :
  delay_invariant s -> delay_invariant (_adjust_delay ok s).
Proof.
  unfold delay_invariant, delay_in_bounds, _adjust_delay.
  intros (H0 & Hlo & Hhi).
  destruct ok; [destruct (_ && _); [|done]|]; cbn.
  - unfold pymax. destruct (Qltb _ _) eqn:E.
    + apply Qltb_lt in E. split_and!; [done| lra | lra].
    + split_and!; [done | lra | lra].
  - unfold pymin. destruct (Qltb _ _) eqn:E.
    + apply Qltb_lt in E. split_and!; [done | lra | lra].
    + split_and!; [done | lra | lra].
Qed.

Lemma report_invariant ok s :
  delay_invariant s -> delay_invariant (report ok s).
Proof.
  intros H. unfold report. destruct ok; by apply adjust_delay_invariant.
Qed.

Lemma reports_invariant l s :
  delay_invariant s -> delay_invariant (reports l s).
Proof.
  revert s. induction l as [|ok l IH]; intros s H; [done|].
  apply IH. by apply report_invariant.
Qed.

(** C5 (delay bounds), amended.  [__init__] takes the first delay from
    [rate_limit_delay] without clamping it.  When that value lies within
    [0.8, 3.0], the delay lies within
    [min_adaptive_delay, max_adaptive_delay] after every sequence of success
    and failure reports. *)
Theorem delay_stays_in_bounds (max_results : Z) (rate_limit_delay : Q)
    (checkpoint_interval : Z) (fs : option checkpoint_data) (now : Q)
    (l : list bool) :
  (0.8 <= rate_limit_delay)%Q ->
  (rate_limit_delay <= 3.0)%Q ->
  delay_in_bounds
    (reports l
       (init max_results rate_limit_delay checkpoint_interval fs now)).
Proof.
  intros Hlo Hhi. apply reports_invariant.
  unfold delay_invariant, delay_in_bounds; cbn. split_and!; [lra|done|done].
Qed.

Lemma delay_stays_in_bounds_witness :
  delay_in_bounds
    (reports [false; false; true; false] (init 100 1.0 200 None 0)).
Proof.
  apply (delay_stays_in_bounds 100 1.0 200 None 0
           [false; false; true; false]).
  - vm_compute. discriminate.
  - vm_compute. discriminate.
Defined.

(** ** The recursion of the fetch, as the source writes it *)

Lemma get_autocomplete_suggestions_unfold srv query retry_count max_retries s :
  get_autocomplete_suggestions srv query retry_count max_retries s
  = match attempt (srv query retry_count) s with
    | (s1, Done suggestions) => (s1, suggestions)
    | (s1, Retryable) =>
        if (retry_count <? max_retries)%nat
        then get_autocomplete_suggestions srv query (S retry_count)
               max_retries s1
        else (s1, [])
    end.
Proof.
  unfold get_autocomplete_suggestions.
  destruct (Nat.ltb_spec retry_count max_retries) as [Hlt|Hge].
  - replace (max_retries - retry_count)%nat
      with (S (max_retries - S retry_count)) by lia.
    reflexivity.
  - replace (max_retries - retry_count)%nat with O by lia.
    reflexivity.
Qed.

(** ** Reports during a fetch *)

Lemma report_controller ok s s1 :
  controller s1 = controller s ->
  controller (report ok s1) = controller (report ok s).
Proof.
  unfold controller. intros [= Hd Hmin Hmax Hc].
  unfold report, _adjust_delay, incr_success, incr_failure.
  destruct ok; cbn; rewrite ?Hd, ?Hmin, ?Hmax, ?Hc; [|done].
  destruct (_ && _); cbn; by rewrite ?Hd, ?Hmin, ?Hmax.
Qed.

Lemma reports_controller l s s1 :
  controller s1 = controller s ->
  controller (reports l s1) = controller (reports l s).
Proof.
  revert s s1. induction l as [|ok l IH]; intros s s1 H; [done|].
  cbn. by apply IH, report_controller.
Qed.

Lemma count_request_controller current_time writable s :
  controller (count_request current_time writable s).1 = controller s.
Proof.
  unfold count_request; cbn.
  destruct (checkpoint_interval s =? 0); [done|].
  destruct (_ || _); [by destruct writable|done].
Qed.

Lemma count_request_ok current_time writable s :
  checkpoint_interval s ≠ 0 -> (count_request current_time writable s).2 = None.
Proof.
  intros H. unfold count_request; cbn.
  destruct (Z.eqb_spec (checkpoint_interval s) 0); [done|].
  destruct (_ || _); [by destruct writable|done].
Qed.

Lemma attempt_spec o s :
  checkpoint_interval s ≠ 0 ->
  controller (attempt o s).1 = controller (reports (reports_of o) s)
  ∧ (attempt o s).2
    = if retryable o then Retryable
      else Done match o with
                | Response 200 _ _ (inr (ResultsList l)) => l
                | _ => []
                end.
Proof.
  intros Hci.
  destruct o as [[|]|status_code current_time writable data]; cbn;
    [done..|].
  pose proof (count_request_controller current_time writable s) as Hc.
  pose proof (count_request_ok current_time writable s Hci) as Hok.
  destruct (count_request current_time writable s) as [s1 oe];
    cbn in Hc, Hok; subst oe.
  destruct (Z.eqb_spec status_code 429) as [->|H429]; cbn.
  { split; [|done]. by apply (report_controller false). }
  destruct (Z.eqb_spec status_code 200) as [->|H200]; cbn.
  - destruct data as [[|]|[l|]]; cbn; try done.
    split; [|done]. by apply (report_controller true).
  - destruct (status_code >=? 500); cbn; split; try done.
    all: destruct status_code as [|p|p]; try done.
    all: by repeat (destruct p as [p|p|]; try done).
Qed.

Lemma attempt_interval o s :
  checkpoint_interval (attempt o s).1 = checkpoint_interval s.
Proof. by destruct (attempt_same_crawl o s) as (_ & ? & _). Qed.

Lemma fetch_reports_of n srv query retry_count s :
  checkpoint_interval s ≠ 0 ->
  controller (fetch n srv query retry_count s).1
  = controller
      (reports (flat_map reports_of (observed n srv query retry_count)) s).
Proof.
  revert retry_count s.
  induction n as [|n IH]; intros retry_count s Hci; cbn;
    destruct (attempt_spec (srv query retry_count) s Hci) as [Hc Hr];
    pose proof (attempt_interval (srv query retry_count) s) as Hi;
    destruct (attempt (srv query retry_count) s) as [s1 r]; cbn in *;
    destruct (retryable (srv query retry_count)); subst r; cbn;
    rewrite ?app_nil_r; try done.
  rewrite IH by congruence.
  rewrite foldl_app. by apply reports_controller.
Qed.

(** C6, as stated, fails: after a 503 followed by a 200 the failure counter
    is 0 and the delay 1.0, where one failure report would have left a
    failure counter of 1 and a delay of 1.5. *)
Lemma fetch_reports_claim_counterexample :
  ~ fetch_reports_claim once_unavailable (str "a") 8 (fresh 100).
Proof.
  unfold fetch_reports_claim. intros H.
  apply (f_equal (fun c => failure c.2)) in H.
  vm_compute in H. discriminate H.
Qed.

(** C6 (reports of a fetch), amended.  With a non-zero
    [checkpoint_interval], a fetch leaves the controller (the delay, its
    bounds and the two counters) as do, applied in the order of the
    outcomes met: one failure report (the failure counter incremented, then
    [_adjust_delay(False)]) for each 429 response, one success report (the
    success counter incremented, then [_adjust_delay(True)]) for a 200
    response whose body has a list of results, and no report for any other
    outcome: a status of 500 and above and a transport error report
    nothing. *)
Theorem fetch_reports (srv : service) (query : pystr) (max_retries : nat)
    (s : extractor) :
  checkpoint_interval s ≠ 0 ->
  controller (get_autocomplete_suggestions srv query 0 max_retries s).1
  = controller
      (reports (flat_map reports_of (observed max_retries srv query 0)) s).
Proof.
  intros Hci. unfold get_autocomplete_suggestions.
  rewrite Nat.sub_0_r. by apply fetch_reports_of.
Qed.

Lemma fetch_reports_witness :
  controller
    (get_autocomplete_suggestions thrice_limited (str "a") 0 8 (fresh 100)).1
  = controller (reports [false; false; false; true] (fresh 100)).
Proof.
  apply (fetch_reports thrice_limited (str "a") 8 (fresh 100)).
  vm_compute. discriminate.
Defined.

(** The run of the specification's scenario D: the page of the 200 is
    returned, three failures are counted, four requests were made, and the
    delay went from 1.0 to the maximum of 3.0. *)
Example three_429_then_200 :
  let r := get_autocomplete_suggestions thrice_limited (str "a") 0 8
             (fresh 100) in
  r.2 = [str "ab"; str "ac"]
  ∧ failure (rate_limit_counters r.1) = 3
  ∧ request_count r.1 = 4
  ∧ (adaptive_delay r.1 == 3.0)%Q.
Proof. by vm_compute. Qed.

(** ** Exhausted retries *)

Lemma attempt_failure o s :
  is_failure o ->
  (attempt o s).2 = Retryable ∨ (attempt o s).2 = Done [].
Proof.
  destruct o as [[|]|status_code current_time writable data]; cbn;
    [auto | done |].
  intros Hf.
  destruct (count_request current_time writable s) as [s1 [[|]|]]; cbn; auto.
  destruct (Z.eqb_spec status_code 429); cbn; [auto|].
  destruct (Z.eqb_spec status_code 200); cbn; [lia|].
  destruct (status_code >=? 500); auto.
Qed.

Lemma fetch_exhausted n srv query retry_count s :
  (forall k, (retry_count <= k <= retry_count + n)%nat ->
             is_failure (srv query k)) ->
  (fetch n srv query retry_count s).2 = [].
Proof.
  revert retry_count s.
  induction n as [|n IH]; intros retry_count s Hall; cbn;
    destruct (attempt_failure (srv query retry_count) s
                (Hall retry_count ltac:(lia))) as [Hr|Hr];
    destruct (attempt (srv query retry_count) s) as [s1 r]; cbn in Hr;
    subst r; cbn; try done.
  apply IH. intros k Hk. apply Hall. lia.
Qed.

(** C7 (retries exhausted).  When every request of a fetch, the first and
    the [max_retries] retries, meets a 429, a status of 500 and above or a
    transport error, [get_autocomplete_suggestions] returns the empty list:
    the model of the function is total, its two [except] clauses catch what
    the body raises, and nothing is raised to the caller. *)
Theorem retries_exhausted_returns_empty (srv : service) (query : pystr)
    (max_retries : nat) (s : extractor) :
  (forall k, (k <= max_retries)%nat -> is_failure (srv query k)) ->
  (get_autocomplete_suggestions srv query 0 max_retries s).2 = [].
Proof.
  intros Hall. unfold get_autocomplete_suggestions.
  rewrite Nat.sub_0_r. apply fetch_exhausted.
  intros k Hk. apply Hall. lia.
Qed.

Lemma retries_exhausted_witness :
  (get_autocomplete_suggestions always_limited (str "a") 0 8 (fresh 100)).2
  = [].
Proof.
  apply (retries_exhausted_returns_empty always_limited (str "a") 8
           (fresh 100)).
  intros k _. left. reflexivity.
Defined.

(** ** The worker and the explored prefixes *)

Lemma fetch_ext n srv srv' query retry_count s :
  (forall k, srv query k = srv' query k) ->
  fetch n srv query retry_count s = fetch n srv' query retry_count s.
Proof.
  intros Hext. revert retry_count s.
  induction n as [|n IH]; intros retry_count s; cbn; rewrite Hext;
    destruct (attempt (srv' query retry_count) s) as [s1 [l|]]; done.
Qed.

Lemma explore_prefix_ext srv srv' prefix s :
  (forall k, srv prefix k = srv' prefix k) ->
  explore_prefix srv prefix s = explore_prefix srv' prefix s.
Proof.
  intros Hext. unfold explore_prefix, get_autocomplete_suggestions.
  by rewrite (fetch_ext _ srv srv').
Qed.

Lemma expand_explored prefix suggestions s :
  explored_prefixes (expand prefix suggestions s).1 = explored_prefixes s.
Proof.
  unfold expand.
  destruct (len suggestions =? _); [|done].
  destruct (last suggestions) as [last_result|]; [|done].
  destruct (len prefix <? len last_result).
  - destruct (last_result !! length prefix) as [next_char|]; [|done].
    cbn. rewrite (foldl_enqueue _ (N.ltb next_char) prefix) by done.
    cbn. by destruct (decide _).
  - cbn. by rewrite (foldl_enqueue _ (fun _ => true) prefix).
Qed.

Lemma explore_prefix_explored srv prefix s :
  explored_prefixes (explore_prefix srv prefix s).1 = explored_prefixes s.
Proof.
  unfold explore_prefix.
  destruct (get_autocomplete_suggestions srv prefix 0 8 s) as [s1 l] eqn:Hf.
  rewrite expand_explored.
  by destruct (get_autocomplete_suggestions_same_crawl _ _ _ _ _ _ _ Hf)
    as (_ & _ & _ & ? & _).
Qed.

Lemma worker_iteration_explored srv s :
  explored_prefixes s ⊆ explored_prefixes (worker_iteration srv s).1.
Proof.
  unfold worker_iteration.
  destruct (queue_get (prefix_queue s)) as [[[priority prefix] q]|]; [|done].
  destruct (decide _); [done|].
  pose proof (explore_prefix_explored srv prefix (set_prefix_queue q s)) as H.
  destruct (explore_prefix _ _ _) as [s2 [|]]; cbn in *; rewrite H.
  - apply union_subseteq_r.
  - done.
Qed.

Lemma worker_iteration_ext srv srv' s :
  (forall query k, query ∉ explored_prefixes s -> srv query k = srv' query k) ->
  worker_iteration srv s = worker_iteration srv' s.
Proof.
  intros Hext. unfold worker_iteration.
  destruct (queue_get (prefix_queue s)) as [[[priority prefix] q]|]; [|done].
  destruct (decide _) as [|Hnew]; [done|].
  rewrite (explore_prefix_ext srv srv'); [done|].
  intros k. by apply Hext.
Qed.

Lemma worker_ext turns (srv srv' : nat -> service) s :
  (forall n query k,
     query ∉ explored_prefixes s -> srv n query k = srv' n query k) ->
  worker turns srv s = worker turns srv' s.
Proof.
  revert s. induction turns as [|n IH]; intros s Hext; [done|]. cbn.
  rewrite (worker_iteration_ext (srv n) (srv' n)) by (intros; by apply Hext).
  pose proof (worker_iteration_explored (srv' n) s) as Hmono.
  destruct (worker_iteration (srv' n) s) as [s1 [|]]; [|done].
  apply IH. intros m query k Hq. apply Hext. cbn in Hmono.
  intros Hin. apply Hq. by apply Hmono.
Qed.

(** C9 (no redundant work).  When the item a worker takes from the queue
    carries a prefix that is in [explored_prefixes], the turn only removes
    the item: no fetch is made, [request_count] and every other attribute
    are unchanged, whatever the service would have answered.  Over a whole
    run of the loop, the answers of the service for the prefixes explored at
    its start are never asked for: two services that differ only on those
    prefixes give the same run. *)
Theorem explored_prefix_not_refetched (s : extractor) :
  (forall srv priority prefix q,
     queue_get (prefix_queue s) = Some ((priority, prefix), q) ->
     prefix ∈ explored_prefixes s ->
     worker_iteration srv s = (set_prefix_queue q s, Continue)
     ∧ request_count (worker_iteration srv s).1 = request_count s)
  ∧ (forall turns (srv srv' : nat -> service),
       (forall n query k,
          query ∉ explored_prefixes s -> srv n query k = srv' n query k) ->
       worker turns srv s = worker turns srv' s).
Proof.
  split.
  - intros srv priority prefix q Hget Hin. unfold worker_iteration.
    rewrite Hget. cbn. by rewrite decide_True.
  - intros turns srv srv'. apply worker_ext.
Qed.

Lemma explored_prefix_not_refetched_witness :
  worker_iteration (answers [str "aa"; str "ab"]) resumed
    = (set_prefix_queue [] resumed, Continue)
  ∧ request_count
      (worker_iteration (answers [str "aa"; str "ab"]) resumed).1
    = request_count resumed.
Proof.
  apply (proj1 (explored_prefix_not_refetched resumed)
           (answers [str "aa"; str "ab"]) 1 (str "a") []).
  - reflexivity.
  - change (str "a" ∈ ({[str "a"]} : gset (list N))).
    apply elem_of_singleton. reflexivity.
Defined.

(** ** The checkpoint *)

Lemma set_prefix_queue_app q1 q2 s :
  set_prefix_queue (prefix_queue (set_prefix_queue (prefix_queue s ++ q1) s)
                      ++ q2)
    (set_prefix_queue (prefix_queue s ++ q1) s)
  = set_prefix_queue (prefix_queue s ++ q1 ++ q2) s.
Proof. cbn. unfold set_prefix_queue; cbn. by rewrite <- app_assoc. Qed.

Lemma requeue_loop (prefix_len : nat) (prefix cs : pystr) (s : extractor) :
  foldl (fun s char =>
           let new_prefix := prefix ++ [char] in
           if decide (new_prefix ∈ explored_prefixes s) then s
           else put (Z.of_nat prefix_len + 1, new_prefix) s)
        s cs
  = set_prefix_queue
      (prefix_queue s
         ++ requeue_items prefix_len prefix (explored_prefixes s) cs) s.
Proof.
  revert s. induction cs as [|c cs IH]; intros s.
  - unfold requeue_items; cbn. by rewrite app_nil_r, set_prefix_queue_id.
  - cbn [foldl]. rewrite IH. unfold requeue_items. rewrite filter_cons. cbn.
    destruct (decide (prefix ++ [c] ∈ explored_prefixes s)) as [Hin|Hin].
    + by rewrite decide_False by (by intros ?).
    + rewrite decide_True by done. cbn. by rewrite <- app_assoc.
Qed.

Lemma requeue_prefix_spec prefix_len prefix s :
  requeue_prefix prefix_len prefix s
  = set_prefix_queue
      (prefix_queue s
         ++ requeue_items prefix_len prefix (explored_prefixes s) charset) s.
Proof. apply requeue_loop. Qed.

Lemma requeue_group prefix_len (ps : list pystr) s :
  foldl (fun s prefix => requeue_prefix prefix_len prefix s) s ps
  = set_prefix_queue
      (prefix_queue s
         ++ (ps ≫= fun prefix =>
               requeue_items prefix_len prefix (explored_prefixes s) charset))
      s.
Proof.
  revert s. induction ps as [|p ps IH]; intros s.
  - cbn. by rewrite app_nil_r, set_prefix_queue_id.
  - cbn [foldl]. rewrite IH, requeue_prefix_spec, bind_cons.
    apply set_prefix_queue_app.
Qed.

Lemma requeue_groups (m : gmap nat (list pystr)) (ks : list nat) s :
  foldl (fun s prefix_len =>
           foldl (fun s prefix => requeue_prefix prefix_len prefix s)
                 s (default [] (m !! prefix_len)))
        s ks
  = set_prefix_queue
      (prefix_queue s
         ++ (ks ≫= fun prefix_len =>
               default [] (m !! prefix_len) ≫= fun prefix =>
                 requeue_items prefix_len prefix (explored_prefixes s)
                   charset))
      s.
Proof.
  revert s. induction ks as [|k ks IH]; intros s.
  - cbn. by rewrite app_nil_r, set_prefix_queue_id.
  - cbn [foldl]. rewrite IH, requeue_group, bind_cons.
    apply set_prefix_queue_app.
Qed.

Lemma length_requeued (m : gmap nat (list pystr)) (ks : list nat)
    (explored : gset pystr) :
  length (ks ≫= fun prefix_len =>
            default [] (m !! prefix_len) ≫= fun prefix =>
              requeue_items prefix_len prefix explored charset)
  = sum_list_with (open_extensions explored)
      (ks ≫= fun prefix_len => default [] (m !! prefix_len)).
Proof.
  induction ks as [|k ks IH]; [done|].
  rewrite !bind_cons, length_app, sum_list_with_app, IH. f_equal.
  induction (default [] (m !! k)) as [|p ps IHp]; [done|].
  rewrite bind_cons, length_app, IHp. cbn. f_equal.
  unfold requeue_items, open_extensions. by rewrite length_map.
Qed.

Lemma grouped_insert (m : gmap nat (list pystr)) (prefix : pystr) :
  grouped (<[length prefix := default [] (m !! length prefix) ++ [prefix]]> m)
  ≡ₚ grouped m ++ [prefix].
Proof.
  unfold grouped. set (k := length prefix).
  destruct (m !! k) as [old|] eqn:Hk; cbn.
  - rewrite <- insert_delete_eq.
    rewrite map_to_list_insert by apply lookup_delete_eq.
    rewrite <- (map_to_list_delete m k old Hk), !bind_cons. cbn.
    rewrite <- !app_assoc. apply Permutation_app_head, Permutation_app_comm.
  - rewrite map_to_list_insert by done.
    rewrite bind_cons. cbn. apply Permutation_cons_append.
Qed.

Lemma grouped_foldl (l : list pystr) (m : gmap nat (list pystr)) :
  grouped
    (foldl (fun m prefix =>
              <[length prefix :=
                  default [] (m !! length prefix) ++ [prefix]]> m)
           m l)
  ≡ₚ grouped m ++ l.
Proof.
  revert m. induction l as [|p l IH]; intros m; cbn [foldl].
  - by rewrite app_nil_r.
  - rewrite IH, grouped_insert, <- app_assoc. done.
Qed.

Lemma group_by_length_grouped (l : list pystr) :
  grouped (group_by_length l) ≡ₚ l.
Proof.
  unfold group_by_length. rewrite grouped_foldl.
  unfold grouped. by rewrite map_to_list_empty.
Qed.

Lemma lookup_keys (m : gmap nat (list pystr)) (l : list (nat * list pystr)) :
  (forall k v, (k, v) ∈ l -> m !! k = Some v) ->
  l.*1 ≫= (fun k => default [] (m !! k)) = l ≫= snd.
Proof.
  induction l as [|[k v] l IH]; intros H; [done|].
  cbn [fmap list_fmap]. rewrite !bind_cons. cbn.
  rewrite (H k v) by apply list_elem_of_here. cbn. f_equal.
  apply IH. intros k' v' Hin. apply H. by apply list_elem_of_further.
Qed.

Lemma sorted_keys_grouped (m : gmap nat (list pystr)) :
  sorted_keys m ≫= (fun k => default [] (m !! k)) ≡ₚ grouped m.
Proof.
  unfold sorted_keys, grouped.
  rewrite merge_sort_Permutation.
  assert (elements (dom m) ≡ₚ (map_to_list m).*1) as ->.
  { apply NoDup_Permutation.
    - apply NoDup_elements.
    - apply NoDup_fst_map_to_list.
    - intros k. rewrite elem_of_elements, elem_of_dom, list_elem_of_fmap.
      split.
      + intros [v Hv]. exists (k, v). split; [done|].
        by apply elem_of_map_to_list.
      + intros ([k' v] & -> & Hin). exists v.
        by apply elem_of_map_to_list. }
  rewrite lookup_keys; [done|].
  intros k v. apply elem_of_map_to_list.
Qed.

Lemma length_filter_pairs (explored : gset pystr) (p cs : pystr) :
  length
    (filter (fun pc : pystr * char => pc.1 ++ [pc.2] ∉ explored)
       (map (fun c => (p, c)) cs))
  = length (filter (fun c : char => p ++ [c] ∉ explored) cs).
Proof.
  induction cs as [|c cs IH]; [done|].
  cbn [map]. rewrite !filter_cons. cbn.
  destruct (decide (p ++ [c] ∉ explored)); cbn; by rewrite IH.
Qed.

Lemma unexplored_extensions_sum (explored : gset pystr) (ps : list pystr) :
  length
    (filter (fun pc : pystr * char => pc.1 ++ [pc.2] ∉ explored)
       (list_prod ps charset))
  = sum_list_with (open_extensions explored) ps.
Proof.
  induction ps as [|p ps IH]; [done|].
  cbn [list_prod sum_list_with].
  by rewrite filter_app, length_app, IH, length_filter_pairs.
Qed.

Lemma charset_NoDup : NoDup charset.
Proof. apply (bool_decide_unpack _). by vm_compute. Qed.

Lemma load_checkpoint_spec (s : extractor) (cp : checkpoint_data) :
  disk s = Some cp ->
  exists s',
    _load_checkpoint s = (s', true)
    ∧ discovered_names s' = list_to_set (cp_discovered_names cp)
    ∧ explored_prefixes s' = list_to_set (cp_explored_prefixes cp)
    ∧ request_count s' = cp_request_count cp
    ∧ prefix_queue s' = prefix_queue s ++ enqueued s s'
    ∧ length (enqueued s s')
      = unexplored_extensions (list_to_set (cp_explored_prefixes cp)).
Proof.
  intros Hd. unfold _load_checkpoint. rewrite Hd.
  eexists. split; [reflexivity|].
  rewrite requeue_groups. cbn.
  set (X := list_to_set (cp_explored_prefixes cp) : gset (list N)).
  unfold enqueued; cbn. rewrite drop_app_length.
  split_and!; try done.
  rewrite length_requeued, sorted_keys_grouped, group_by_length_grouped.
  unfold unexplored_extensions. by rewrite unexplored_extensions_sum.
Qed.

(** C3, as stated, fails: after a run that explored "a" and "ab", the
    reloaded queue holds 71 items, the extensions by a digit or a letter,
    where the pairs with a character of the whole charset are 129. *)
Lemma round_trip_claim_counterexample :
  ~ round_trip_claim (set_explored_prefixes {[str "a"; str "ab"]} (fresh 100)).
Proof.
  intros (s' & Hl & _ & _ & Hlen).
  apply (f_equal (fun r => length (prefix_queue r.1))) in Hl.
  cbn [fst] in Hl. rewrite <- Hl in Hlen.
  vm_compute in Hlen. discriminate Hlen.
Qed.

(** C3 (checkpoint round trip), amended.  Let an object [s] save its
    checkpoint, the write succeeding, and any object [r] that finds this
    file load it.  The load succeeds; the loaded [discovered_names],
    [explored_prefixes] and [request_count] are those of [s]; and the load
    adds to the queue of [r] as many items as there are pairs of an explored
    prefix and a digit or lowercase letter (the attribute [charset];
    extensions by a punctuation character are not queued again) whose
    one-character extension is not explored.  For a newly built object,
    whose queue is empty, that number is the size of the queue. *)
Theorem checkpoint_round_trip (s s1 : extractor) (writable : bool) :
  _save_checkpoint writable s = (s1, true) ->
  (forall r : extractor,
     exists s',
       _load_checkpoint (set_disk (disk s1) r) = (s', true)
       ∧ discovered_names s' = discovered_names s
       ∧ explored_prefixes s' = explored_prefixes s
       ∧ request_count s' = request_count s
       ∧ length (prefix_queue s')
         = (length (prefix_queue r)
            + unexplored_extensions (explored_prefixes s))%nat)
  ∧ (forall max_results rate_limit_delay checkpoint_interval now,
       exists s',
         _load_checkpoint
           (init max_results rate_limit_delay checkpoint_interval (disk s1)
              now)
         = (s', true)
         ∧ discovered_names s' = discovered_names s
         ∧ explored_prefixes s' = explored_prefixes s
         ∧ request_count s' = request_count s
         ∧ length (prefix_queue s')
           = unexplored_extensions (explored_prefixes s)).
Proof.
  intros Hsave.
  assert (disk s1 = Some (snapshot s)) as Hd.
  { unfold _save_checkpoint in Hsave. destruct writable; [|done].
    by inversion Hsave. }
  rewrite Hd.
  assert (forall r : extractor,
     exists s',
       _load_checkpoint (set_disk (Some (snapshot s)) r) = (s', true)
       ∧ discovered_names s' = discovered_names s
       ∧ explored_prefixes s' = explored_prefixes s
       ∧ request_count s' = request_count s
       ∧ length (prefix_queue s')
         = (length (prefix_queue r)
            + unexplored_extensions (explored_prefixes s))%nat) as Hload.
  { intros r.
    destruct (load_checkpoint_spec
                (set_disk (Some (snapshot s)) r) _ eq_refl)
      as (s' & Hl & Hn & Hx & Hc & Hq & Hlen).
    exists s'. cbn in Hn, Hx, Hc.
    rewrite list_to_set_elements_L in Hn, Hx.
    split_and!; try done.
    rewrite Hq, length_app, Hlen. cbn.
    by rewrite list_to_set_elements_L. }
  split; [exact Hload|].
  intros mr d ci now. apply (Hload (init mr d ci None now)).
Qed.

Lemma checkpoint_round_trip_witness :
  (forall r : extractor,
     exists s',
       _load_checkpoint (set_disk (disk (_save_checkpoint true resumed).1) r)
       = (s', true)
       ∧ discovered_names s' = discovered_names resumed
       ∧ explored_prefixes s' = explored_prefixes resumed
       ∧ request_count s' = request_count resumed
       ∧ length (prefix_queue s')
         = (length (prefix_queue r)
            + unexplored_extensions (explored_prefixes resumed))%nat)
  ∧ (forall max_results rate_limit_delay checkpoint_interval now,
       exists s',
         _load_checkpoint
           (init max_results rate_limit_delay checkpoint_interval
              (disk (_save_checkpoint true resumed).1) now)
         = (s', true)
         ∧ discovered_names s' = discovered_names resumed
         ∧ explored_prefixes s' = explored_prefixes resumed
         ∧ request_count s' = request_count resumed
         ∧ length (prefix_queue s')
           = unexplored_extensions (explored_prefixes resumed)).
Proof.
  apply (checkpoint_round_trip resumed (_save_checkpoint true resumed).1 true).
  reflexivity.
Defined.

(** After a run that explored "a" and "ab" only, the reloaded queue holds
    the 35 extensions of "a" other than "ab" and the 36 of "ab"; no
    extension by a punctuation character is among them. *)
Example reload_after_two_prefixes :
  let s := set_explored_prefixes {[str "a"; str "ab"]} (fresh 100) in
  let s' :=
    (_load_checkpoint
       (init 100 1.0 200 (disk (_save_checkpoint true s).1) 0)).1 in
  length (prefix_queue s') = 71%nat
  ∧ unexplored_extensions (explored_prefixes s) = 71%nat
  ∧ claimed_extensions (explored_prefixes s) = 129%nat
  ∧ ((1 + 1, str "ab") ∉ prefix_queue s')
  ∧ (1 + 1, str "aa") ∈ prefix_queue s'
  ∧ str "a!" ∉ (prefix_queue s').*2.
Proof.
  cbv zeta. split_and!.
  - by vm_compute.
  - by vm_compute.
  - by vm_compute.
  - apply (bool_decide_eq_false_1 _). by vm_compute.
  - apply (bool_decide_eq_true_1 _). by vm_compute.
  - apply (bool_decide_eq_false_1 _). by vm_compute.
Qed.

(** ** Runs of the definitions *)

(** [get] takes the smallest priority, and the smallest prefix among equal
    priorities. *)
Example queue_get_smallest :
  queue_get [(6, str "ac"); (1, str "b"); (6, str "ab")]
  = Some ((1, str "b"), [(6, str "ac"); (6, str "ab")])
  ∧ queue_get [(6, str "ac"); (6, str "ab")]
    = Some ((6, str "ab"), [(6, str "ac")])
  ∧ queue_get [] = None.
Proof. by vm_compute. Qed.

(** The page ["aa", "ab"] for the prefix "a" with [max_results = 2]: the
    pivot is the second character of "ab"; "ab" is queued first, at priority
    1, "aa" is not queued, the letters after "b" follow at priority 6 and
    the four punctuation characters after the letters at priority 11. *)
Example page_aa_ab :
  let s' := (explore_prefix (answers [str "aa"; str "ab"]) (str "a")
               (fresh 2)).1 in
  take 3 (prefix_queue s') = [(1, str "ab"); (6, str "ac"); (6, str "ad")]
  ∧ drop 25 (prefix_queue s')
    = [(11, str "a{"); (11, str "a|"); (11, str "a}"); (11, str "a~")]
  ∧ (str "aa" ∉ (prefix_queue s').*2)
  ∧ str "aa" ∈ discovered_names s'
  ∧ str "ab" ∈ discovered_names s'
  ∧ size (discovered_names s') = 2%nat
  ∧ request_count s' = 1.
Proof.
  cbv zeta. split_and!;
    first [ by vm_compute
          | apply (bool_decide_eq_false_1 _); by vm_compute
          | apply (bool_decide_eq_true_1 _); by vm_compute ].
Qed.

(** One turn of a worker on a queued, unexplored prefix: the fetch is made,
    the prefix becomes explored, the item is gone from the queue. *)
Example worker_turn :
  let s := set_prefix_queue [(1, str "z")] (fresh 2) in
  let r := worker_iteration (answers [str "z"]) s in
  r.2 = Continue
  ∧ request_count r.1 = 1
  ∧ prefix_queue r.1 = []
  ∧ str "z" ∈ explored_prefixes r.1
  ∧ str "z" ∈ discovered_names r.1.
Proof.
  cbv zeta. split_and!; by vm_compute.
Qed.

(** * Further properties of the fetch *)

Lemma adjust_delay_untouched ok s :
  request_count (_adjust_delay ok s) = request_count s
  ∧ disk (_adjust_delay ok s) = disk s.
Proof.
  unfold _adjust_delay. destruct ok; [destruct (_ && _)|]; done.
Qed.

Lemma count_request_count current_time writable s :
  request_count (count_request current_time writable s).1 = request_count s + 1.
Proof.
  unfold count_request; cbn.
  destruct (checkpoint_interval s =? 0); [done|].
  destruct (_ || _); [by destruct writable|done].
Qed.

Lemma attempt_request_count o s :
  request_count (attempt o s).1
  = match o with
    | GetRaises _ => request_count s
    | Response _ _ _ _ => request_count s + 1
    end.
Proof.
  destruct o as [e|status_code current_time writable data]; cbn.
  { by rewrite handle_state. }
  pose proof (count_request_count current_time writable s) as Hc.
  destruct (count_request current_time writable s) as [s1 [e|]]; cbn in *.
  { by rewrite handle_state. }
  destruct (status_code =? 429); cbn.
  { by rewrite (proj1 (adjust_delay_untouched _ _)). }
  destruct (status_code =? 200); cbn.
  - destruct data as [e|[l|]]; cbn; [by rewrite handle_state| |done].
    by rewrite (proj1 (adjust_delay_untouched _ _)).
  - by destruct (status_code >=? 500).
Qed.

Lemma fetch_request_count n srv query retry_count s :
  request_count s <= request_count (fetch n srv query retry_count s).1
  ∧ request_count (fetch n srv query retry_count s).1
    <= request_count s + Z.of_nat (S n).
Proof.
  revert retry_count s.
  induction n as [|n IH]; intros retry_count s; cbn [fetch];
    pose proof (attempt_request_count (srv query retry_count) s) as Ha;
    destruct (attempt (srv query retry_count) s) as [s1 [l|]]; cbn in *;
    try (destruct (srv query retry_count); lia).
  specialize (IH (S retry_count) s1).
  destruct (srv query retry_count); lia.
Qed.

(** X1.  A fetch never lowers [request_count] and raises it by at most
    [max_retries + 1]: one for each response received, none for a request
    that raised before a response came. *)
Theorem fetch_counts_requests (srv : service) (query : pystr)
    (max_retries : nat) (s : extractor) :
  let s' := (get_autocomplete_suggestions srv query 0 max_retries s).1 in
  request_count s <= request_count s'
  ∧ request_count s' <= request_count s + Z.of_nat max_retries + 1.
Proof.
  cbv zeta. unfold get_autocomplete_suggestions. rewrite Nat.sub_0_r.
  pose proof (fetch_request_count max_retries srv query 0 s). lia.
Qed.

Lemma attempt_done o s l :
  (attempt o s).2 = Done l ->
  l = []
  ∨ exists current_time writable,
      o = Response 200 current_time writable (inr (ResultsList l)).
Proof.
  destruct o as [[|]|status_code current_time writable data]; cbn;
    [done|intros [=]; auto|].
  destruct (count_request current_time writable s) as [s1 [[|]|]]; cbn;
    [done | intros [=]; auto |].
  destruct (Z.eqb_spec status_code 429); cbn; [done|].
  destruct (Z.eqb_spec status_code 200) as [->|]; cbn.
  - destruct data as [[|]|[l'|]]; cbn; intros [=]; subst; eauto.
  - destruct (status_code >=? 500); intros [=]; auto.
Qed.

Lemma fetch_page n srv query retry_count s :
  (fetch n srv query retry_count s).2 = []
  ∨ exists k current_time writable,
      (retry_count <= k <= retry_count + n)%nat
      ∧ srv query k
        = Response 200 current_time writable
            (inr (ResultsList (fetch n srv query retry_count s).2)).
Proof.
  revert retry_count s.
  induction n as [|n IH]; intros retry_count s; cbn [fetch];
    pose proof (attempt_done (srv query retry_count) s) as Ha;
    destruct (attempt (srv query retry_count) s) as [s1 [l|]]; cbn in *;
    auto.
  - destruct (Ha l eq_refl) as [->|(current_time & writable & Ho)]; [auto|].
    right. exists retry_count, current_time, writable. split; [lia|done].
  - destruct (Ha l eq_refl) as [->|(current_time & writable & Ho)]; [auto|].
    right. exists retry_count, current_time, writable. split; [lia|done].
  - destruct (IH (S retry_count) s1)
      as [H|(k & current_time & writable & Hk & Ho)]; [auto|].
    right. exists k, current_time, writable. split; [lia|done].
Qed.

(** X2.  What a fetch returns is the empty list or the page of a 200
    response that one of its requests received: no name is returned that the
    service did not send for this query. *)
Theorem fetch_returns_a_received_page (srv : service) (query : pystr)
    (max_retries : nat) (s : extractor) :
  let page := (get_autocomplete_suggestions srv query 0 max_retries s).2 in
  page = []
  ∨ exists k current_time writable,
      (k <= max_retries)%nat
      ∧ srv query k
        = Response 200 current_time writable (inr (ResultsList page)).
Proof.
  cbv zeta. unfold get_autocomplete_suggestions. rewrite Nat.sub_0_r.
  destruct (fetch_page max_retries srv query 0 s)
    as [H|(k & current_time & writable & Hk & Ho)]; [auto|].
  right. exists k, current_time, writable. split; [lia|done].
Qed.

Lemma fetch_after_retries (n : nat) (srv : service) (query : pystr)
    (retry_count : nat) (s : extractor) (k : nat) (current_time : Q)
    (writable : bool)
    (page : list pystr) :
  checkpoint_interval s ≠ 0 ->
  (k <= n)%nat ->
  (forall j, (j < k)%nat ->
             retryable (srv query (retry_count + j)%nat) = true) ->
  srv query (retry_count + k)%nat
    = Response 200 current_time writable (inr (ResultsList page)) ->
  (fetch n srv query retry_count s).2 = page.
Proof.
  revert n retry_count s.
  induction k as [|k IH]; intros n retry_count s Hci Hk Hretry Hpage.
  - rewrite Nat.add_0_r in Hpage.
    destruct (attempt_spec (srv query retry_count) s Hci) as [_ Hr].
    destruct n; cbn [fetch];
      destruct (attempt (srv query retry_count) s) as [s1 r];
      cbn [snd] in Hr; subst r; by rewrite Hpage.
  - destruct n as [|n]; [lia|]. cbn [fetch].
    destruct (attempt_spec (srv query retry_count) s Hci) as [_ Hr].
    pose proof (attempt_interval (srv query retry_count) s) as Hi.
    rewrite <- (Nat.add_0_r retry_count) in Hr at 2.
    rewrite (Hretry O ltac:(lia)) in Hr.
    destruct (attempt (srv query retry_count) s) as [s1 r];
      cbn [fst snd] in Hr, Hi.
    subst r. apply IH; [congruence | lia | |].
    + intros j Hj. replace (S retry_count + j)%nat
        with (retry_count + S j)%nat by lia. apply Hretry. lia.
    + by replace (S retry_count + k)%nat with (retry_count + S k)%nat by lia.
Qed.

(** X3.  With a non-zero [checkpoint_interval], when the first [k] requests
    of a fetch, [k] at most [max_retries], meet retryable outcomes (a 429, a
    status of 500 and above, a [RequestException]) and the next one a 200
    with a list of results, the fetch returns that list. *)
Theorem fetch_succeeds_after_retries (srv : service) (query : pystr)
    (max_retries : nat) (s : extractor) (k : nat)
    (current_time : Q) (writable : bool)
    (page : list pystr) :
  checkpoint_interval s ≠ 0 ->
  (k <= max_retries)%nat ->
  (forall j, (j < k)%nat -> retryable (srv query j) = true) ->
  srv query k = Response 200 current_time writable (inr (ResultsList page)) ->
  (get_autocomplete_suggestions srv query 0 max_retries s).2 = page.
Proof.
  intros Hci Hk Hretry Hpage. unfold get_autocomplete_suggestions.
  rewrite Nat.sub_0_r.
  by apply (fetch_after_retries max_retries srv query 0 s k current_time
              writable).
Qed.

Lemma fetch_succeeds_after_retries_witness :
  (get_autocomplete_suggestions thrice_limited (str "a") 0 8 (fresh 100)).2
  = [str "ab"; str "ac"].
Proof.
  apply (fetch_succeeds_after_retries thrice_limited (str "a") 8 (fresh 100)
           3 0 true).
  - vm_compute. discriminate.
  - lia.
  - intros [|[|[|j]]] Hj; [reflexivity..|lia].
  - reflexivity.
Defined.

Lemma count_request_raises current_time writable s :
  (count_request current_time writable s).2 ≠ Some RequestException.
Proof.
  unfold count_request; cbn.
  destruct (checkpoint_interval s =? 0); [done|].
  destruct (_ || _); [by destruct writable|done].
Qed.

Lemma fetch_not_retryable n srv query retry_count s :
  retryable (srv query retry_count) = false ->
  fetch n srv query retry_count s
  = ((attempt (srv query retry_count) s).1,
     match (attempt (srv query retry_count) s).2 with
     | Done l => l
     | Retryable => []
     end).
Proof.
  intros Hr.
  destruct n; cbn [fetch];
    destruct (attempt (srv query retry_count) s) as [s1 [l|]] eqn:Ha;
    cbn; try done.
  exfalso. revert Ha Hr. clear.
  destruct (srv query retry_count)
    as [[|]|status_code current_time writable data];
    unfold attempt, retryable, handle; try (intros; discriminate).
  pose proof (count_request_raises current_time writable s) as Hc.
  destruct (count_request current_time writable s) as [s2 [[|]|]];
    cbn [snd] in Hc;
    try done; try (intros; discriminate).
  destruct (status_code =? 429); [intros; discriminate|].
  destruct (status_code =? 200); cbn [negb].
  - destruct data as [[|]|[l|]]; intros; discriminate.
  - destruct (status_code >=? 500); intros; discriminate.
Qed.

(** X4.  With a non-zero [checkpoint_interval], a response that is neither
    retried nor a page ends the fetch at once: after a status other than
    429 and 200 and below 500, or after a 200 whose body has no list of
    results, the fetch returns the empty list, has counted one request and
    has left the delay and the counters as they were. *)
Theorem fetch_gives_up_at_once (srv : service) (query : pystr)
    (max_retries : nat) (s : extractor) (status_code : Z)
    (current_time : Q) (writable : bool)
    (data : exception + json) :
  checkpoint_interval s ≠ 0 ->
  srv query O = Response status_code current_time writable data ->
  (status_code ≠ 429 ∧ status_code ≠ 200 ∧ status_code < 500)
  ∨ (status_code = 200 ∧ data = inr OtherJson) ->
  let r := get_autocomplete_suggestions srv query 0 max_retries s in
  r.2 = []
  ∧ request_count r.1 = request_count s + 1
  ∧ controller r.1 = controller s.
Proof.
  intros Hci Ho Hcase. cbv zeta. unfold get_autocomplete_suggestions.
  rewrite Nat.sub_0_r.
  assert (retryable (srv query O) = false
          ∧ reports_of (srv query O) = []
          ∧ match srv query O with
            | Response 200 _ _ (inr (ResultsList l)) => l
            | _ => []
            end = []) as (Hr & Hrep & Hl).
  { rewrite Ho. cbn. destruct Hcase as [(H429 & H200 & H500)|[-> ->]].
    - destruct (Z.eqb_spec status_code 429); [done|].
      destruct (Z.eqb_spec status_code 200); [done|]. cbn.
      rewrite Z.geb_leb. destruct (Z.leb_spec 500 status_code); [lia|].
      split_and!; try done.
      destruct status_code as [|p|p]; try done.
      by repeat (destruct p as [p|p|]; try done).
    - done. }
  rewrite (fetch_not_retryable _ _ _ _ _ Hr). cbn [fst snd].
  destruct (attempt_spec (srv query O) s Hci) as [Hc Hres].
  rewrite Hr in Hres. rewrite Hres, Hc, Hrep, Hl.
  rewrite attempt_request_count, Ho. done.
Qed.

(** A service that answers 404. *)
Lemma fetch_gives_up_at_once_witness :
  let r := get_autocomplete_suggestions
             (fun _ _ => Response 404 0 true (inr OtherJson)) (str "a") 0 8
             (fresh 100) in
  r.2 = []
  ∧ request_count r.1 = request_count (fresh 100) + 1
  ∧ controller r.1 = controller (fresh 100).
Proof.
  apply (fetch_gives_up_at_once
           (fun _ _ => Response 404 0 true (inr OtherJson)) (str "a") 8
           (fresh 100) 404 0 true (inr OtherJson)).
  - vm_compute. discriminate.
  - reflexivity.
  - left. split_and!; [discriminate | discriminate | reflexivity].
Defined.

(** X5.  With [checkpoint_interval = 0] the remainder in the request count
    block raises, and the generic [except] clause returns the empty list:
    whatever response the first request receives, a full page included, the
    fetch returns no name, counts the request and changes nothing else. *)
Theorem zero_interval_loses_every_page (srv : service) (query : pystr)
    (max_retries : nat) (s : extractor) (status_code : Z)
    (current_time : Q) (writable : bool)
    (data : exception + json) :
  checkpoint_interval s = 0 ->
  srv query O = Response status_code current_time writable data ->
  get_autocomplete_suggestions srv query 0 max_retries s
  = (set_request_count (request_count s + 1) s, []).
Proof.
  intros Hci Ho. unfold get_autocomplete_suggestions.
  rewrite Nat.sub_0_r.
  assert (attempt (srv query O) s
          = (set_request_count (request_count s + 1) s, Done [])) as Ha.
  { rewrite Ho. unfold attempt, count_request. cbn. by rewrite Hci. }
  destruct max_retries; cbn [fetch]; by rewrite Ha.
Qed.

Lemma zero_interval_witness :
  get_autocomplete_suggestions (answers [str "aa"; str "ab"]) (str "a") 0 8
    (init 2 1.0 0 None 0)
  = (set_request_count (request_count (init 2 1.0 0 None 0) + 1)
       (init 2 1.0 0 None 0), []).
Proof.
  apply (zero_interval_loses_every_page (answers [str "aa"; str "ab"])
           (str "a") 8 (init 2 1.0 0 None 0) 200 0 true
           (inr (ResultsList [str "aa"; str "ab"]))).
  - reflexivity.
  - reflexivity.
Defined.

(** * Further properties of the periodic checkpoint *)

Lemma count_request_disk current_time writable s :
  checkpoint_interval s ≠ 0 ->
  disk (count_request current_time writable s).1
  = if (((request_count s + 1) mod checkpoint_interval s =? 0)
        || Qltb 300 (current_time - last_checkpoint_time s))
       && writable
    then Some (snapshot (set_request_count (request_count s + 1) s))
    else disk s.
Proof.
  intros Hci. unfold count_request; cbn.
  destruct (Z.eqb_spec (checkpoint_interval s) 0); [done|].
  destruct (_ || _); [by destruct writable|done].
Qed.

Lemma count_request_clock current_time writable s :
  checkpoint_interval s ≠ 0 ->
  last_checkpoint_time (count_request current_time writable s).1
  = if ((request_count s + 1) mod checkpoint_interval s =? 0)
       || Qltb 300 (current_time - last_checkpoint_time s)
    then current_time
    else last_checkpoint_time s.
Proof.
  intros Hci. unfold count_request; cbn.
  destruct (Z.eqb_spec (checkpoint_interval s) 0); [done|].
  by destruct (_ || _).
Qed.

Lemma adjust_delay_clock ok s :
  last_checkpoint_time (_adjust_delay ok s) = last_checkpoint_time s.
Proof.
  unfold _adjust_delay. destruct ok; [destruct (_ && _)|]; done.
Qed.

Lemma attempt_disk_response status_code current_time writable data s :
  disk (attempt (Response status_code current_time writable data) s).1
  = disk (count_request current_time writable s).1.
Proof.
  cbn. destruct (count_request current_time writable s) as [s1 [e|]]; cbn.
  { by rewrite handle_state. }
  destruct (status_code =? 429); cbn.
  { by rewrite (proj2 (adjust_delay_untouched _ _)). }
  destruct (status_code =? 200); cbn.
  - destruct data as [e|[l|]]; cbn; [by rewrite handle_state| |done].
    by rewrite (proj2 (adjust_delay_untouched _ _)).
  - by destruct (status_code >=? 500).
Qed.

Lemma attempt_clock_response status_code current_time writable data s :
  last_checkpoint_time
    (attempt (Response status_code current_time writable data) s).1
  = last_checkpoint_time (count_request current_time writable s).1.
Proof.
  cbn. destruct (count_request current_time writable s) as [s1 [e|]]; cbn.
  { by rewrite handle_state. }
  destruct (status_code =? 429); cbn.
  { by rewrite adjust_delay_clock. }
  destruct (status_code =? 200); cbn.
  - destruct data as [e|[l|]]; cbn; [by rewrite handle_state| |done].
    by rewrite adjust_delay_clock.
  - by destruct (status_code >=? 500).
Qed.

Lemma checkpoint_due_test (s : extractor) (current_time : Q) :
  ((request_count s + 1) mod checkpoint_interval s =? 0)
  || Qltb 300 (current_time - last_checkpoint_time s) = true
  <-> (request_count s + 1) mod checkpoint_interval s = 0
      ∨ (300 < current_time - last_checkpoint_time s)%Q.
Proof. by rewrite orb_true_iff, Z.eqb_eq, Qltb_lt. Qed.

(** X6.  With a non-zero [checkpoint_interval], take a request that
    receives a response, at the clock reading [current_time].  The
    checkpoint is due when the new request count is a multiple of the
    interval or more than 300 seconds have passed since
    [last_checkpoint_time].  When it is due and the write succeeds, the file
    holds the names and the explored prefixes of that moment and the new
    count; when it is due and the write fails, the file is left as it is;
    in both cases [last_checkpoint_time] becomes [current_time].  When it is
    not due, the file and [last_checkpoint_time] are left as they are. *)
Theorem checkpoint_written_when_due (s : extractor) (status_code : Z)
    (current_time : Q) (writable : bool) (data : exception + json) :
  checkpoint_interval s ≠ 0 ->
  let s' := (attempt (Response status_code current_time writable data) s).1 in
  let due :=
    (request_count s + 1) mod checkpoint_interval s = 0
    ∨ (300 < current_time - last_checkpoint_time s)%Q in
  (due -> writable = true ->
   disk s'
   = Some {| cp_discovered_names := elements (discovered_names s);
             cp_explored_prefixes := elements (explored_prefixes s);
             cp_request_count := request_count s + 1 |}
   ∧ last_checkpoint_time s' = current_time)
  ∧ (due -> writable = false ->
     disk s' = disk s ∧ last_checkpoint_time s' = current_time)
  ∧ (~ due ->
     disk s' = disk s ∧ last_checkpoint_time s' = last_checkpoint_time s).
Proof.
  intros Hci. cbv zeta.
  rewrite attempt_disk_response, attempt_clock_response.
  rewrite count_request_disk, count_request_clock by done.
  pose proof (checkpoint_due_test s current_time) as Hdue.
  destruct (_ || _).
  - split_and!.
    + by intros _ ->.
    + by intros _ ->.
    + intros Hn. destruct Hn. by apply Hdue.
  - split_and!.
    + intros H%Hdue. discriminate H.
    + intros H%Hdue. discriminate H.
    + done.
Qed.

(** An object built at time 0 whose first response comes at time 301: the
    count, 1, is no multiple of 200, and the checkpoint is written for the
    five minutes that have passed. *)
Lemma checkpoint_written_when_due_witness :
  let s' :=
    (attempt (Response 200 301 true (inr (ResultsList [str "ab"])))
       (fresh 100)).1 in
  disk s'
  = Some {| cp_discovered_names := [];
            cp_explored_prefixes := [];
            cp_request_count := 1 |}
  ∧ last_checkpoint_time s' = 301%Q.
Proof.
  apply (checkpoint_written_when_due (fresh 100) 200 301 true
           (inr (ResultsList [str "ab"]))).
  - vm_compute. discriminate.
  - right. vm_compute. reflexivity.
  - reflexivity.
Defined.

(** The same response with a write that fails, and at time 300: in the
    first case the file is not written and the time is taken all the same,
    in the second nothing is due. *)
Example checkpoint_not_written :
  let failed :=
    (attempt (Response 200 301 false (inr (ResultsList [str "ab"])))
       (fresh 100)).1 in
  let early :=
    (attempt (Response 200 300 true (inr (ResultsList [str "ab"])))
       (fresh 100)).1 in
  disk failed = None ∧ last_checkpoint_time failed = 301%Q
  ∧ disk early = None ∧ last_checkpoint_time early = 0%Q.
Proof. by vm_compute. Qed.

Lemma attempt_disk o s :
  disk (attempt o s).1 = disk s
  ∨ disk (attempt o s).1
    = Some (snapshot (set_request_count (request_count s + 1) s))
    ∧ request_count (attempt o s).1 = request_count s + 1.
Proof.
  destruct o as [e|status_code current_time writable data].
  { left. cbn. by rewrite handle_state. }
  rewrite attempt_disk_response, attempt_request_count.
  unfold count_request; cbn.
  destruct (checkpoint_interval s =? 0); [by left|].
  destruct (_ || _); [destruct writable; [by right | by left] | by left].
Qed.

Lemma fetch_disk n srv query retry_count s :
  disk (fetch n srv query retry_count s).1 = disk s
  ∨ exists count,
      request_count s < count
      ∧ count <= request_count (fetch n srv query retry_count s).1
      ∧ disk (fetch n srv query retry_count s).1
        = Some {| cp_discovered_names := elements (discovered_names s);
                  cp_explored_prefixes := elements (explored_prefixes s);
                  cp_request_count := count |}.
Proof.
  revert retry_count s.
  induction n as [|n IH]; intros retry_count s; cbn [fetch];
    pose proof (attempt_disk (srv query retry_count) s) as Hd;
    pose proof (attempt_same_crawl (srv query retry_count) s)
      as (_ & _ & Hn & Hx & _);
    pose proof (attempt_request_count (srv query retry_count) s) as Hrc;
    destruct (attempt (srv query retry_count) s) as [s1 r];
    cbn [fst snd] in *.
  - assert (disk s1 = disk s
            ∨ exists count,
                request_count s < count ∧ count <= request_count s1
                ∧ disk s1
                  = Some {| cp_discovered_names
                              := elements (discovered_names s);
                            cp_explored_prefixes
                              := elements (explored_prefixes s);
                            cp_request_count := count |}) as H.
    { destruct Hd as [Hd|[Hd Hc]]; [by left|]. right.
      exists (request_count s + 1). split_and!; [lia | lia | done]. }
    by destruct r.
  - destruct r as [l|]; cbn [fst snd].
    + destruct Hd as [Hd|[Hd Hc]]; [by left|]. right.
      exists (request_count s + 1). split_and!; [lia | lia | done].
    + pose proof (fetch_request_count n srv query (S retry_count) s1)
        as [Hlo _].
      assert (request_count s <= request_count s1) as Hmono
        by (destruct (srv query retry_count); lia).
      destruct (IH (S retry_count) s1) as [H|(count & H1 & H2 & H3)].
      * rewrite H. destruct Hd as [Hd|[Hd Hc]]; [by left|]. right.
        exists (request_count s + 1). split_and!; [lia | lia | done].
      * right. exists count. rewrite Hn, Hx in H3.
        split_and!; [lia | lia | done].
Qed.

(** X7.  After a fetch the checkpoint file is what it was, or it is a
    snapshot taken during this fetch: the names and explored prefixes of the
    object, which a fetch does not change, with a request count above the
    one before the fetch and at most the one after. *)
Theorem fetch_checkpoint (srv : service) (query : pystr) (max_retries : nat)
    (s : extractor) :
  let s' := (get_autocomplete_suggestions srv query 0 max_retries s).1 in
  disk s' = disk s
  ∨ exists count,
      request_count s < count <= request_count s'
      ∧ disk s'
        = Some {| cp_discovered_names := elements (discovered_names s);
                  cp_explored_prefixes := elements (explored_prefixes s);
                  cp_request_count := count |}.
Proof.
  cbv zeta. unfold get_autocomplete_suggestions. rewrite Nat.sub_0_r.
  destruct (fetch_disk max_retries srv query 0 s)
    as [H|(count & H1 & H2 & H3)]; [by left|].
  right. by exists count.
Qed.

(** * Further properties of the delay and the counters *)

Lemma report_failure_counters s :
  rate_limit_counters (report false s)
  = {| success := 0; failure := failure (rate_limit_counters s) + 1 |}.
Proof. reflexivity. Qed.

Lemma fetch_all_429 n srv query retry_count s :
  checkpoint_interval s ≠ 0 ->
  (forall k, (retry_count <= k <= retry_count + n)%nat ->
             exists current_time writable data,
               srv query k = Response 429 current_time writable data) ->
  let s' := (fetch n srv query retry_count s).1 in
  request_count s' = request_count s + Z.of_nat (S n)
  ∧ failure (rate_limit_counters s')
    = failure (rate_limit_counters s) + Z.of_nat (S n)
  ∧ success (rate_limit_counters s') = 0.
Proof.
  revert retry_count s.
  induction n as [|n IH]; intros retry_count s Hci Hall;
    destruct (Hall retry_count ltac:(lia))
      as (current_time & writable & data & Ho);
    destruct (attempt_spec (srv query retry_count) s Hci) as [Hc Hr];
    pose proof (attempt_request_count (srv query retry_count) s) as Hrc;
    pose proof (attempt_interval (srv query retry_count) s) as Hi;
    cbv zeta; cbn [fetch];
    destruct (attempt (srv query retry_count) s) as [s1 r];
    rewrite Ho in Hc, Hr, Hrc; cbn [fst snd] in *;
    change (reports (reports_of (Response 429 current_time writable data)) s)
      with (report false s) in Hc;
    change (retryable (Response 429 current_time writable data)) with true
      in Hr;
    subst r; cbn [fst snd];
    apply (f_equal (fun c => c.2)) in Hc; cbn [snd controller] in Hc.
  - rewrite Hc, report_failure_counters. cbn. split_and!; [lia | lia | done].
  - destruct (IH (S retry_count) s1) as (H1 & H2 & H3);
      [congruence | intros k Hk; apply Hall; lia |].
    rewrite H1, H2, H3, Hc, report_failure_counters. cbn.
    split_and!; [lia | lia | done].
Qed.

(** X8.  With a non-zero [checkpoint_interval], a fetch whose every request
    is answered 429 makes [max_retries + 1] requests, counts as many
    failures, and ends with the success counter at zero. *)
Theorem rate_limited_fetch_counts (srv : service) (query : pystr)
    (max_retries : nat) (s : extractor) :
  checkpoint_interval s ≠ 0 ->
  (forall k, (k <= max_retries)%nat ->
             exists current_time writable data,
               srv query k = Response 429 current_time writable data) ->
  let s' := (get_autocomplete_suggestions srv query 0 max_retries s).1 in
  request_count s' = request_count s + Z.of_nat max_retries + 1
  ∧ failure (rate_limit_counters s')
    = failure (rate_limit_counters s) + Z.of_nat max_retries + 1
  ∧ success (rate_limit_counters s') = 0.
Proof.
  intros Hci Hall. cbv zeta. unfold get_autocomplete_suggestions.
  rewrite Nat.sub_0_r.
  destruct (fetch_all_429 max_retries srv query 0 s Hci) as (H1 & H2 & H3).
  { intros k Hk. apply Hall. lia. }
  split_and!; [lia | lia | done].
Qed.

Lemma rate_limited_fetch_counts_witness :
  let s' := (get_autocomplete_suggestions always_limited (str "a") 0 8
               (fresh 100)).1 in
  request_count s' = request_count (fresh 100) + Z.of_nat 8 + 1
  ∧ failure (rate_limit_counters s')
    = failure (rate_limit_counters (fresh 100)) + Z.of_nat 8 + 1
  ∧ success (rate_limit_counters s') = 0.
Proof.
  apply (rate_limited_fetch_counts always_limited (str "a") 8 (fresh 100)).
  - vm_compute. discriminate.
  - intros k _. exists 0%Q, true, (inr OtherJson). reflexivity.
Defined.

(** X9.  While the delay is within its bounds and the minimum is not
    negative, a failure report never lowers the delay and a success report
    never raises it. *)
Theorem reports_move_the_delay_one_way (s : extractor) :
  delay_invariant s ->
  (adaptive_delay s <= adaptive_delay (report false s))%Q
  ∧ (adaptive_delay (report true s) <= adaptive_delay s)%Q.
Proof.
  unfold delay_invariant, delay_in_bounds. intros (H0 & Hlo & Hhi).
  unfold report, _adjust_delay, incr_success, incr_failure. split.
  - cbn. unfold pymin. destruct (Qltb _ _) eqn:E; [|done].
    apply Qltb_lt in E. lra.
  - destruct (_ && _); cbn; [|lra].
    unfold pymax. destruct (Qltb _ _) eqn:E; lra.
Qed.

Lemma reports_move_the_delay_one_way_witness :
  (adaptive_delay (fresh 100) <= adaptive_delay (report false (fresh 100)))%Q
  ∧ (adaptive_delay (report true (fresh 100)) <= adaptive_delay (fresh 100))%Q.
Proof.
  apply (reports_move_the_delay_one_way (fresh 100)).
  unfold delay_invariant, delay_in_bounds.
  split_and!; vm_compute; discriminate.
Defined.

Lemma successes_below_threshold (n : nat) (s : extractor) :
  success (rate_limit_counters s) + Z.of_nat n <= 30 ->
  reports (repeat true n) s
  = set_rate_limit_counters
      (set_success (success (rate_limit_counters s) + Z.of_nat n)
         (rate_limit_counters s)) s.
Proof.
  revert s. induction n as [|n IH]; intros s Hle.
  - cbn. rewrite Z.add_0_r. by destruct s as [? ? ? ? ? ? ? ? ? [? ?] ?].
  - cbn [repeat reports foldl]. fold (reports (repeat true n) (report true s)).
    assert (report true s = incr_success s) as ->.
    { unfold report, _adjust_delay, incr_success. cbn.
      destruct (Z.ltb_spec 30 (success (rate_limit_counters s) + 1)); [lia|].
      by rewrite andb_false_r. }
    rewrite IH by (unfold incr_success; cbn; lia).
    unfold incr_success, set_rate_limit_counters, set_success; cbn.
    do 2 f_equal. lia.
Qed.

(** X10.  After a failure report, up to thirty success reports in a row
    leave the delay where the failure put it: they only count the
    successes. *)
Theorem no_decay_within_thirty_successes (s : extractor) (n : nat) :
  (n <= 30)%nat ->
  let s' := reports (repeat true n) (report false s) in
  adaptive_delay s' = adaptive_delay (report false s)
  ∧ rate_limit_counters s'
    = {| success := Z.of_nat n;
         failure := failure (rate_limit_counters s) + 1 |}.
Proof.
  intros Hn. cbv zeta.
  rewrite successes_below_threshold
    by (rewrite report_failure_counters; cbn; lia).
  rewrite report_failure_counters. by cbn.
Qed.

Lemma no_decay_within_thirty_successes_witness :
  let s' := reports (repeat true 30) (report false (fresh 100)) in
  adaptive_delay s' = adaptive_delay (report false (fresh 100))
  ∧ rate_limit_counters s'
    = {| success := Z.of_nat 30;
         failure := failure (rate_limit_counters (fresh 100)) + 1 |}.
Proof.
  apply (no_decay_within_thirty_successes (fresh 100) 30). lia.
Defined.

Lemma reports_app l1 l2 s : reports (l1 ++ l2) s = reports l2 (reports l1 s).
Proof. apply foldl_app. Qed.

Lemma ratio_of_31 (f : Z) :
  f <= 5 ->
  Qltb 0.85 (success_ratio {| success := 31; failure := f |}) = true.
Proof.
  intros Hf. apply Qltb_lt. unfold success_ratio, pymaxZ; cbn [success failure].
  destruct (Z.ltb_spec 1 (31 + f)) as [Hlt|Hge]; [|done].
  destruct (31 + f) as [|p|p] eqn:E; [lia| |lia].
  unfold Qdiv, Qinv, Qmult, Qlt; cbn. lia.
Qed.

(** X11.  When at most five failures are counted after a failure report,
    the thirty-first success report in a row lowers the delay, to the
    maximum of [min_adaptive_delay] and 0.97 times the delay, and sets the
    counters to 15 successes and 2 failures. *)
Theorem decay_at_thirty_first_success (s : extractor) :
  failure (rate_limit_counters s) + 1 <= 5 ->
  let raised := report false s in
  let s' := reports (repeat true 31) raised in
  adaptive_delay s'
  = pymax (min_adaptive_delay s) (adaptive_delay raised * 0.97)%Q
  ∧ rate_limit_counters s' = {| success := 15; failure := 2 |}.
Proof.
  intros Hf. cbv zeta.
  change (repeat true 31) with (repeat true 30 ++ [true]).
  rewrite reports_app.
  assert (reports (repeat true 30) (report false s)
          = set_rate_limit_counters
              {| success := 30;
                 failure := failure (rate_limit_counters s) + 1 |}
              (report false s)) as ->.
  { rewrite successes_below_threshold
      by (rewrite report_failure_counters; cbn; lia).
    by rewrite report_failure_counters. }
  set (raised := report false s).
  cbn [reports foldl]. unfold report, incr_success.
  cbn [rate_limit_counters set_rate_limit_counters set_success success
       failure].
  change (30 + 1) with 31. unfold _adjust_delay, set_success.
  cbn [rate_limit_counters set_rate_limit_counters success failure].
  rewrite ratio_of_31 by done. split; reflexivity.
Qed.

Lemma decay_at_thirty_first_success_witness :
  let raised := report false (fresh 100) in
  let s' := reports (repeat true 31) raised in
  adaptive_delay s'
  = pymax (min_adaptive_delay (fresh 100)) (adaptive_delay raised * 0.97)%Q
  ∧ rate_limit_counters s' = {| success := 15; failure := 2 |}.
Proof.
  apply (decay_at_thirty_first_success (fresh 100)). vm_compute. discriminate.
Defined.

(** X12.  The pause of a worker: while the delay is within its bounds and
    the minimum is not negative, the pause is at least
    [min_adaptive_delay] and at most the adaptive delay; for a prefix of at
    most three characters it is the adaptive delay itself. *)
Theorem worker_pause_bounds (prefix : pystr) (s : extractor) :
  delay_invariant s ->
  (min_adaptive_delay s <= worker_pause prefix s)%Q
  ∧ (worker_pause prefix s <= adaptive_delay s)%Q
  ∧ (len prefix <= 3 -> worker_pause prefix s = adaptive_delay s).
Proof.
  unfold delay_invariant, delay_in_bounds, worker_pause.
  intros (H0 & Hlo & Hhi).
  destruct (Z.ltb_spec 3 (len prefix)); [|split_and!; [done | lra | done]].
  unfold pymax. destruct (Qltb _ _) eqn:E.
  - apply Qltb_lt in E. split_and!; [lra | lra | lia].
  - split_and!; [lra | done | lia].
Qed.

Lemma worker_pause_bounds_witness :
  (min_adaptive_delay (fresh 100) <= worker_pause (str "abcde") (fresh 100))%Q
  ∧ (worker_pause (str "abcde") (fresh 100) <= adaptive_delay (fresh 100))%Q
  ∧ (len (str "abcde") <= 3 ->
     worker_pause (str "abcde") (fresh 100) = adaptive_delay (fresh 100)).
Proof.
  apply (worker_pause_bounds (str "abcde") (fresh 100)).
  unfold delay_invariant, delay_in_bounds.
  split_and!; vm_compute; discriminate.
Defined.

Lemma pymin_raise (M d : Q) :
  (0 <= d)%Q -> (0 <= M)%Q ->
  (pymin M (d * 1.5) <= M)%Q
  ∧ (0 <= pymin M (d * 1.5))%Q
  ∧ ((M <= pymin M (d * 1.5))%Q ∨ (d * 1.5 <= pymin M (d * 1.5))%Q).
Proof.
  intros Hd HM. unfold pymin. destruct (Qltb _ _) eqn:E.
  - apply Qltb_lt in E. split_and!; [lra | lra | right; lra].
  - split_and!; [lra | lra | left; lra].
Qed.

(** X13.  While the delay is within its bounds, the minimum is not negative
    and the maximum is at most five times the minimum (as with the bounds
    0.8 and 3.0 of [__init__]), four failure reports in a row bring the
    delay to [max_adaptive_delay]. *)
Theorem four_failures_reach_the_maximum (s : extractor) :
  delay_invariant s ->
  (max_adaptive_delay s <= 5 * min_adaptive_delay s)%Q ->
  (adaptive_delay (reports [false; false; false; false] s)
   == max_adaptive_delay s)%Q.
Proof.
  unfold delay_invariant, delay_in_bounds. intros (H0 & Hlo & Hhi) H5.
  set (M := max_adaptive_delay s). set (d := adaptive_delay s).
  change (adaptive_delay (reports [false; false; false; false] s))
    with (pymin M (pymin M (pymin M (pymin M (d * 1.5) * 1.5) * 1.5) * 1.5)).
  assert (0 <= d)%Q as Hd by (unfold d; lra).
  assert (0 <= M)%Q as HM by (unfold M, d in *; lra).
  destruct (pymin_raise M d Hd HM) as (U1 & P1 & C1).
  set (r1 := pymin M (d * 1.5)) in *.
  destruct (pymin_raise M r1 P1 HM) as (U2 & P2 & C2).
  set (r2 := pymin M (r1 * 1.5)) in *.
  destruct (pymin_raise M r2 P2 HM) as (U3 & P3 & C3).
  set (r3 := pymin M (r2 * 1.5)) in *.
  destruct (pymin_raise M r3 P3 HM) as (U4 & P4 & C4).
  set (r4 := pymin M (r3 * 1.5)) in *.
  assert (M <= r4)%Q; [|lra].
  unfold M, d in *.
  destruct C1, C2, C3, C4; lra.
Qed.

Lemma four_failures_reach_the_maximum_witness :
  (adaptive_delay (reports [false; false; false; false] (fresh 100))
   == max_adaptive_delay (fresh 100))%Q.
Proof.
  apply (four_failures_reach_the_maximum (fresh 100)).
  - unfold delay_invariant, delay_in_bounds.
    split_and!; vm_compute; discriminate.
  - vm_compute. discriminate.
Defined.

(** * Further properties of the expansion *)

Lemma length_child_items (keep : char -> bool) (prefix : pystr)
    (explored : gset pystr) (cs : pystr) :
  (length (child_items keep prefix explored cs) <= length cs)%nat.
Proof. unfold child_items. rewrite length_map. apply length_filter. Qed.

Lemma priority_boost_le c : priority_boost c <= 10.
Proof. unfold priority_boost. destruct (contains c charset); lia. Qed.

Lemma expand_enqueued prefix suggestions s :
  exists new,
    prefix_queue (expand prefix suggestions s).1 = prefix_queue s ++ new
    ∧ (length new <= 1 + length full_charset)%nat
    ∧ forall prio child,
        (prio, child) ∈ new ->
        exists c, child = prefix ++ [c]
                  ∧ (child ∉ explored_prefixes s)
                  ∧ len prefix <= prio <= len prefix + 10.
Proof.
  assert (forall keep prio child,
            (prio, child)
              ∈ child_items keep prefix (explored_prefixes s) full_charset ->
            exists c, child = prefix ++ [c]
                      ∧ (child ∉ explored_prefixes s)
                      ∧ len prefix <= prio <= len prefix + 10) as Hsib.
  { intros keep prio child (c & _ & _ & -> & Hx & ->)%elem_of_child_items.
    exists c. pose proof (priority_boost_pos c).
    pose proof (priority_boost_le c). split_and!; [done | done | lia | lia]. }
  unfold expand.
  destruct (len suggestions =? _);
    [|exists []; rewrite app_nil_r; split_and!;
        [done | cbn; lia | by intros ?? ?%elem_of_nil]].
  destruct (last suggestions) as [last_result|];
    [|exists []; rewrite app_nil_r; split_and!;
        [done | cbn; lia | by intros ?? ?%elem_of_nil]].
  destruct (len prefix <? len last_result).
  - destruct (last_result !! length prefix) as [next_char|];
      [|exists []; rewrite app_nil_r; split_and!;
          [done | cbn; lia | by intros ?? ?%elem_of_nil]].
    cbn [fst]. rewrite (foldl_enqueue _ (N.ltb next_char) prefix) by done.
    exists (pivot_item prefix (explored_prefixes s) next_char
            ++ child_items (N.ltb next_char) prefix (explored_prefixes s)
                 full_charset).
    pose proof (length_child_items (N.ltb next_char) prefix
                  (explored_prefixes s) full_charset) as Hlen.
    unfold pivot_item. cbn.
    destruct (decide (prefix ++ [next_char] ∈ explored_prefixes s)); cbn.
    + split_and!; [done | lia | by apply Hsib].
    + rewrite <- app_assoc. split_and!; [done | lia |].
      intros prio child [Hin|Hin]%elem_of_cons; [|by eapply Hsib].
      inversion Hin; subst. exists next_char. split_and!; [done | done | lia | lia].
  - cbn [fst]. rewrite (foldl_enqueue _ (fun _ => true) prefix) by done.
    exists (child_items (fun _ => true) prefix (explored_prefixes s)
              full_charset).
    pose proof (length_child_items (fun _ => true) prefix
                  (explored_prefixes s) full_charset) as Hlen.
    cbn. split_and!; [done | lia | by apply Hsib].
Qed.

(** X14.  Whatever the service answers, the items [explore_prefix] adds to
    the queue are one-character extensions of the prefix that are not in
    [explored_prefixes], at a priority between [len(prefix)] and
    [len(prefix) + 10]; there are at most 66 of them, and the items queued
    before stay in front of them. *)
Theorem explore_prefix_children (srv : service) (prefix : pystr)
    (s : extractor) :
  let s' := (explore_prefix srv prefix s).1 in
  prefix_queue s' = prefix_queue s ++ enqueued s s'
  ∧ (length (enqueued s s') <= 66)%nat
  ∧ forall prio child,
      (prio, child) ∈ enqueued s s' ->
      exists c, child = prefix ++ [c]
                ∧ (child ∉ explored_prefixes s)
                ∧ len prefix <= prio <= len prefix + 10.
Proof.
  cbv zeta. unfold explore_prefix.
  destruct (get_autocomplete_suggestions srv prefix 0 8 s)
    as [s1 suggestions] eqn:Hf.
  destruct (get_autocomplete_suggestions_same_crawl _ _ _ _ _ _ _ Hf)
    as (_ & _ & _ & Hx & Hq & _).
  destruct (expand_enqueued prefix suggestions s1) as (new & Hnew & Hlen & Hin).
  rewrite Hq, Hx in *.
  assert (enqueued s (expand prefix suggestions s1).1 = new) as ->.
  { unfold enqueued. by rewrite Hnew, drop_app_length. }
  split_and!; [done | exact Hlen | exact Hin].
Qed.

(** * Further properties of the worker *)

Lemma expand_state prefix suggestions s :
  exists new,
    (expand prefix suggestions s).1
    = set_prefix_queue (prefix_queue s ++ new)
        (set_discovered_names (discovered_names s ∪ list_to_set suggestions)
           s).
Proof.
  unfold expand. rewrite record_names.
  set (s1 := set_discovered_names _ s).
  assert (s1 = set_prefix_queue (prefix_queue s ++ []) s1) as Hnil.
  { rewrite app_nil_r. symmetry. apply (set_prefix_queue_id s1). }
  destruct (len suggestions =? _); [|by exists []].
  destruct (last suggestions) as [last_result|]; [|by exists []].
  destruct (len prefix <? len last_result).
  - destruct (last_result !! length prefix) as [next_char|]; [|by exists []].
    cbn [fst]. rewrite (foldl_enqueue _ (N.ltb next_char) prefix) by done.
    destruct (decide _); cbn.
    + by eexists.
    + eexists. by rewrite <- app_assoc.
  - cbn [fst]. rewrite (foldl_enqueue _ (fun _ => true) prefix) by done.
    by eexists.
Qed.

Lemma explore_prefix_grows srv prefix s :
  let s' := (explore_prefix srv prefix s).1 in
  discovered_names s ⊆ discovered_names s'
  ∧ explored_prefixes s' = explored_prefixes s
  ∧ request_count s <= request_count s'
  ∧ (disk s' = disk s
     ∨ exists count,
         request_count s < count <= request_count s'
         ∧ disk s'
           = Some {| cp_discovered_names := elements (discovered_names s);
                     cp_explored_prefixes := elements (explored_prefixes s);
                     cp_request_count := count |}).
Proof.
  cbv zeta. unfold explore_prefix, get_autocomplete_suggestions.
  pose proof (fetch_same_crawl (8 - 0) srv prefix 0 s)
    as (_ & _ & Hn & Hx & _).
  pose proof (fetch_request_count (8 - 0) srv prefix 0 s) as [Hrc _].
  pose proof (fetch_disk (8 - 0) srv prefix 0 s) as Hd.
  destruct (fetch (8 - 0) srv prefix 0 s) as [s1 suggestions];
    cbn [fst snd] in *.
  destruct (expand_state prefix suggestions s1) as [new ->]. cbn.
  rewrite Hn, Hx. split_and!; [apply union_subseteq_l | done | done |].
  destruct Hd as [Hd|(count & H1 & H2 & H3)]; [by left|].
  right. by exists count.
Qed.

Lemma worker_iteration_grows srv s :
  let s' := (worker_iteration srv s).1 in
  discovered_names s ⊆ discovered_names s'
  ∧ explored_prefixes s ⊆ explored_prefixes s'
  ∧ request_count s <= request_count s'
  ∧ (checkpoint_behind s -> checkpoint_behind s').
Proof.
  cbv zeta. unfold worker_iteration.
  destruct (queue_get (prefix_queue s)) as [[[priority prefix] q]|];
    [|by split_and!].
  destruct (decide _); [by split_and!|].
  pose proof (explore_prefix_grows srv prefix (set_prefix_queue q s))
    as (Hn & Hx & Hrc & Hd).
  cbn [discovered_names explored_prefixes request_count disk
       set_prefix_queue] in Hn, Hx, Hrc, Hd.
  assert (checkpoint_behind s ->
          checkpoint_behind (explore_prefix srv prefix (set_prefix_queue q s)).1)
    as Hcp.
  { unfold checkpoint_behind.
    destruct Hd as [->|(count & Hc & ->)].
    - destruct (disk s) as [cp|]; [|done].
      intros (H1 & H2 & H3). rewrite Hx. split_and!; [|done|lia].
      intros name Hin. by apply Hn, H1.
    - intros _. cbn. rewrite Hx. split_and!; [| |lia].
      + intros name Hin%elem_of_elements. by apply Hn.
      + by intros p Hin%elem_of_elements. }
  destruct (explore_prefix srv prefix (set_prefix_queue q s)) as [s2 [|]];
    cbn [fst snd] in *.
  - cbn. rewrite Hx. split_and!; [done | apply union_subseteq_r | done |].
    intros H. specialize (Hcp H). revert Hcp. unfold checkpoint_behind. cbn.
    destruct (disk s2) as [cp|]; [|done].
    intros (H1 & H2 & H3). split_and!; [done| |done].
    intros p Hin. apply elem_of_union_r. rewrite <- Hx. by apply H2.
  - rewrite Hx. by split_and!.
Qed.

(** X15.  At every stage of the loop of a worker, whatever the service
    answers, [discovered_names] and [explored_prefixes] contain what they
    contained at the start, and [request_count] is not below its value at
    the start. *)
Theorem worker_never_forgets (turns : nat) (srv : nat -> service)
    (s : extractor) :
  let s' := after_turns turns srv s in
  discovered_names s ⊆ discovered_names s'
  ∧ explored_prefixes s ⊆ explored_prefixes s'
  ∧ request_count s <= request_count s'.
Proof.
  cbv zeta. revert s.
  induction turns as [|n IH]; intros s; [by split_and!|]. cbn [after_turns].
  pose proof (worker_iteration_grows (srv n) s) as (Hn & Hx & Hrc & _).
  destruct (worker_iteration (srv n) s) as [s1 [|]]; cbn [fst] in *.
  - destruct (IH s1) as (Hn' & Hx' & Hrc').
    split_and!; [by etrans | by etrans | lia].
  - by split_and!.
Qed.

(** X16.  A checkpoint file is never ahead of the object that writes it:
    when the names and explored prefixes on disk are among those of the
    object and the count on disk is at most [request_count], in particular
    when there is no file, the same holds at every stage of the loop of a
    worker. *)
Theorem checkpoint_never_ahead (turns : nat) (srv : nat -> service)
    (s : extractor) :
  checkpoint_behind s -> checkpoint_behind (after_turns turns srv s).
Proof.
  revert s. induction turns as [|n IH]; intros s H; [done|].
  cbn [after_turns].
  pose proof (worker_iteration_grows (srv n) s) as (_ & _ & _ & Hcp).
  destruct (worker_iteration (srv n) s) as [s1 [|]]; cbn [fst] in *.
  - by apply IH, Hcp.
  - by apply Hcp.
Qed.

Lemma checkpoint_never_ahead_witness :
  checkpoint_behind
    (after_turns 3 (fun _ => answers [str "aa"; str "ab"])
       (crawl_start (init 2 1.0 1 None 0))).
Proof.
  apply (checkpoint_never_ahead 3 (fun _ => answers [str "aa"; str "ab"])
           (crawl_start (init 2 1.0 1 None 0))).
  vm_compute. exact I.
Defined.

(** ** The order of the queue *)

Lemma pystr_ltb_irrefl (a : pystr) : PyStr.ltb a a = false.
Proof. induction a as [|x a IH]; [done|]. cbn. by rewrite N.ltb_irrefl. Qed.

Lemma pystr_ltb_trans (a b c : pystr) :
  PyStr.ltb a b = true -> PyStr.ltb b c = true -> PyStr.ltb a c = true.
Proof.
  revert b c. induction a as [|x a IH]; intros [|y b] [|z c]; cbn;
    try done.
  destruct (N.ltb_spec x y), (N.ltb_spec y x), (N.ltb_spec y z),
    (N.ltb_spec z y), (N.ltb_spec x z), (N.ltb_spec z x);
    try done; try lia.
  apply IH.
Qed.

Lemma pystr_ltb_asym (a b : pystr) :
  PyStr.ltb a b = true -> PyStr.ltb b a = false.
Proof.
  intros H. destruct (PyStr.ltb b a) eqn:E; [|done].
  by rewrite <- (pystr_ltb_irrefl a), <- (pystr_ltb_trans a b a H E).
Qed.

Lemma pystr_ltb_connex (a b : pystr) :
  PyStr.ltb a b = false -> PyStr.ltb b a = false -> a = b.
Proof.
  revert b. induction a as [|x a IH]; intros [|y b]; cbn; try done.
  destruct (N.ltb_spec x y), (N.ltb_spec y x); try done; try lia.
  intros Ha Hb. f_equal; [lia | by apply IH].
Qed.

Lemma item_ltb_irrefl (a : Z * list N) : item_ltb a a = false.
Proof.
  unfold item_ltb. by rewrite Z.ltb_irrefl, Z.eqb_refl, pystr_ltb_irrefl.
Qed.

Lemma item_ltb_trans (a b c : Z * list N) :
  item_ltb a b = true -> item_ltb b c = true -> item_ltb a c = true.
Proof.
  unfold item_ltb.
  destruct (Z.ltb_spec a.1 b.1), (Z.eqb_spec a.1 b.1),
    (Z.ltb_spec b.1 c.1), (Z.eqb_spec b.1 c.1),
    (Z.ltb_spec a.1 c.1), (Z.eqb_spec a.1 c.1); cbn; try done; try lia.
  apply pystr_ltb_trans.
Qed.

Lemma item_ltb_not_before (a b c : Z * list N) :
  item_ltb a b = false -> item_ltb c b = true -> item_ltb a c = false.
Proof.
  intros Hab Hcb. destruct (item_ltb a c) eqn:E; [|done].
  by rewrite (item_ltb_trans a c b E Hcb) in Hab.
Qed.

Lemma queue_min_spec (x : Z * list N) (q : list (Z * list N)) :
  queue_min x q ∈ x :: q
  ∧ forall y, y ∈ x :: q -> item_ltb y (queue_min x q) = false.
Proof.
  revert x. induction q as [|z q IH]; intros x; cbn [queue_min].
  - split; [apply list_elem_of_here|].
    intros y ->%list_elem_of_singleton. apply item_ltb_irrefl.
  - destruct (IH (if item_ltb z x then z else x)) as [Hin Hmin].
    set (m := queue_min (if item_ltb z x then z else x) q) in *.
    split.
    + apply elem_of_cons in Hin as [Hin|Hin].
      * rewrite Hin. destruct (item_ltb z x).
        -- apply list_elem_of_further, list_elem_of_here.
        -- apply list_elem_of_here.
      * by do 2 apply list_elem_of_further.
    + assert (item_ltb (if item_ltb z x then z else x) m = false) as Hc
        by apply Hmin, list_elem_of_here.
      intros y [->|[->|Hq]%elem_of_cons]%elem_of_cons.
      * destruct (item_ltb z x) eqn:E; [|done].
        destruct (item_ltb x m) eqn:E'; [|done].
        by rewrite (item_ltb_trans z x m E E') in Hc.
      * destruct (item_ltb z x) eqn:E; [done|].
        destruct (item_ltb z m) eqn:E'; [|done]. exfalso.
        revert E E' Hc. clear. unfold item_ltb.
        destruct (Z.ltb_spec z.1 x.1), (Z.eqb_spec z.1 x.1),
          (Z.ltb_spec z.1 m.1), (Z.eqb_spec z.1 m.1),
          (Z.ltb_spec x.1 m.1), (Z.eqb_spec x.1 m.1);
          cbn; try done; try lia.
        intros E E' Hx. destruct (PyStr.ltb x.2 z.2) eqn:Hxz.
        -- by rewrite (pystr_ltb_trans x.2 z.2 m.2 Hxz E') in Hx.
        -- rewrite (pystr_ltb_connex x.2 z.2 Hxz E) in Hx. congruence.
      * by apply Hmin, list_elem_of_further.
Qed.

Lemma remove_first_perm (m : Z * list N) (q : list (Z * list N)) :
  m ∈ q -> q ≡ₚ m :: remove_first m q.
Proof.
  induction q as [|y q IH]; [by intros ?%elem_of_nil|].
  intros Hin. cbn. destruct (decide (y = m)) as [->|Hne]; [done|].
  etrans; [apply Permutation_skip, IH | apply Permutation_swap].
  apply elem_of_cons in Hin as [Hin|Hin]; [congruence | done].
Qed.

(** X17.  [get] on a non-empty queue returns an item of the queue that no
    item of the queue comes before, in the order by priority and then by
    prefix, and leaves the other items: the queue is a permutation of the
    item taken and the rest. *)
Theorem queue_get_takes_the_smallest (q : list (Z * list N)) :
  q ≠ [] ->
  exists m rest,
    queue_get q = Some (m, rest)
    ∧ q ≡ₚ m :: rest
    ∧ forall x, x ∈ q -> item_ltb x m = false.
Proof.
  destruct q as [|x q]; [done|]. intros _.
  destruct (queue_min_spec x q) as [Hin Hmin].
  exists (queue_min x q), (remove_first (queue_min x q) (x :: q)).
  split_and!; [done | by apply remove_first_perm | done].
Qed.

Lemma queue_get_takes_the_smallest_witness :
  exists m rest,
    queue_get [(6, str "ac"); (1, str "b"); (6, str "ab")] = Some (m, rest)
    ∧ [(6, str "ac"); (1, str "b"); (6, str "ab")] ≡ₚ m :: rest
    ∧ forall x, x ∈ [(6, str "ac"); (1, str "b"); (6, str "ab")] ->
                item_ltb x m = false.
Proof.
  apply (queue_get_takes_the_smallest
           [(6, str "ac"); (1, str "b"); (6, str "ab")]).
  discriminate.
Defined.

Lemma queue_get_Some (q : list (Z * list N)) m rest :
  queue_get q = Some (m, rest) -> q ≡ₚ m :: rest.
Proof.
  destruct q as [|x q]; [done|]. intros [= <- <-].
  apply remove_first_perm, queue_min_spec.
Qed.

Lemma worker_S (n : nat) (srv : nat -> service) (s : extractor) :
  worker (S n) srv s
  = match worker_iteration (srv n) s with
    | (s1, Break) => Some s1
    | (s1, Continue) => worker n srv s1
    end.
Proof. reflexivity. Qed.

Lemma explored_queue_drains_aux (n : nat) (srv : nat -> service)
    (s : extractor) :
  length (prefix_queue s) = n ->
  (forall it, it ∈ prefix_queue s -> it.2 ∈ explored_prefixes s) ->
  worker (S n) srv s = Some (set_prefix_queue [] s).
Proof.
  revert s. induction n as [|n IH]; intros s Hlen Hall.
  - rewrite worker_S. unfold worker_iteration.
    destruct (prefix_queue s) eqn:Hq; [|done]. cbn.
    by rewrite <- Hq, set_prefix_queue_id.
  - rewrite worker_S. unfold worker_iteration.
    destruct (queue_get (prefix_queue s)) as [[[priority prefix] rest]|] eqn:Hg.
    + apply queue_get_Some in Hg as Hperm.
      rewrite decide_True.
      * rewrite (IH (set_prefix_queue rest s)); [done| |].
        -- cbn. apply Permutation_length in Hperm. cbn in Hperm. lia.
        -- cbn. intros it Hit. apply Hall. rewrite Hperm.
           by apply list_elem_of_further.
      * cbn. apply (Hall (priority, prefix)). rewrite Hperm.
        apply list_elem_of_here.
    + destruct (prefix_queue s); [done|]. discriminate Hg.
Qed.

(** X18.  When every prefix in the queue is already in
    [explored_prefixes], the loop of a worker ends after one turn for each
    item and one more: the queue is empty and nothing else has changed, no
    request was made. *)
Theorem explored_queue_drains (srv : nat -> service) (s : extractor) :
  (forall it, it ∈ prefix_queue s -> it.2 ∈ explored_prefixes s) ->
  worker (S (length (prefix_queue s))) srv s = Some (set_prefix_queue [] s).
Proof. by apply explored_queue_drains_aux. Qed.

Lemma explored_queue_drains_witness :
  worker (S (length (prefix_queue resumed)))
    (fun _ => answers [str "aa"; str "ab"]) resumed
  = Some (set_prefix_queue [] resumed).
Proof.
  apply (explored_queue_drains (fun _ => answers [str "aa"; str "ab"])
           resumed).
  intros it ->%list_elem_of_singleton.
  change (str "a" ∈ ({[str "a"]} : gset (list N))).
  apply elem_of_singleton. reflexivity.
Defined.

(** X19.  With [max_results = 0], a prefix whose fetch returns nothing
    makes [suggestions[-1]] raise in [explore_prefix]; the worker catches
    it: the item is gone from the queue, nothing is enqueued, and the prefix
    is not added to [explored_prefixes]. *)
Theorem zero_max_results_marks_nothing (srv : service) (s : extractor)
    (priority : Z) (prefix : pystr) (q : list (Z * list N)) :
  max_results s = 0 ->
  queue_get (prefix_queue s) = Some ((priority, prefix), q) ->
  prefix ∉ explored_prefixes s ->
  (get_autocomplete_suggestions srv prefix 0 8 (set_prefix_queue q s)).2 = [] ->
  explore_prefix srv prefix (set_prefix_queue q s)
  = ((get_autocomplete_suggestions srv prefix 0 8 (set_prefix_queue q s)).1,
     Raised)
  ∧ (worker_iteration srv s).2 = Continue
  ∧ prefix_queue (worker_iteration srv s).1 = q
  ∧ explored_prefixes (worker_iteration srv s).1 = explored_prefixes s.
Proof.
  intros Hm Hg Hnew Hempty.
  assert (explore_prefix srv prefix (set_prefix_queue q s)
          = ((get_autocomplete_suggestions srv prefix 0 8
                (set_prefix_queue q s)).1, Raised)) as He.
  { unfold explore_prefix.
    destruct (get_autocomplete_suggestions srv prefix 0 8
                (set_prefix_queue q s)) as [s1 l] eqn:Hf.
    cbn in Hempty. subst l.
    destruct (get_autocomplete_suggestions_same_crawl _ _ _ _ _ _ _ Hf)
      as (Hm1 & _).
    unfold expand. cbn [foldl len length Z.of_nat max_results
                        set_discovered_names].
    rewrite Hm1. cbn [max_results set_prefix_queue]. rewrite Hm. cbn.
    f_equal. by destruct s1. }
  split; [exact He|].
  unfold worker_iteration. rewrite Hg. cbn [explored_prefixes set_prefix_queue].
  rewrite decide_False by done. rewrite He. cbn [fst snd].
  destruct (get_autocomplete_suggestions_same_crawl srv prefix 0 8
              (set_prefix_queue q s) _ _ (surjective_pairing _))
    as (_ & _ & _ & Hx & Hq & _).
  by split_and!.
Qed.

Lemma zero_max_results_marks_nothing_witness :
  let s := set_prefix_queue [(1, str "a")] (fresh 0) in
  explore_prefix (answers []) (str "a") (set_prefix_queue [] s)
  = ((get_autocomplete_suggestions (answers []) (str "a") 0 8
        (set_prefix_queue [] s)).1, Raised)
  ∧ (worker_iteration (answers []) s).2 = Continue
  ∧ prefix_queue (worker_iteration (answers []) s).1 = []
  ∧ explored_prefixes (worker_iteration (answers []) s).1
    = explored_prefixes s.
Proof.
  intros s.
  apply (zero_max_results_marks_nothing (answers []) s 1 (str "a") []).
  - reflexivity.
  - reflexivity.
  - apply not_elem_of_empty.
  - reflexivity.
Defined.

(** * Further properties of the checkpoint and the start *)

Lemma group_by_length_lookup_aux (l acc : list pystr)
    (m : gmap nat (list pystr)) :
  (forall k p, p ∈ default [] (m !! k) <-> p ∈ acc ∧ length p = k) ->
  forall k p,
    p ∈ default []
          (foldl (fun m prefix =>
                    <[length prefix :=
                        default [] (m !! length prefix) ++ [prefix]]> m)
                 m l !! k)
    <-> p ∈ acc ++ l ∧ length p = k.
Proof.
  revert acc m. induction l as [|q l IH]; intros acc m Hinv k p.
  - cbn. by rewrite app_nil_r.
  - cbn [foldl]. rewrite (IH (acc ++ [q])); [by rewrite <- app_assoc|].
    clear k p. intros k p.
    destruct (decide (length q = k)) as [<-|Hne].
    + rewrite lookup_insert_eq. cbn. rewrite !elem_of_app, Hinv.
      rewrite list_elem_of_singleton. split.
      * intros [[? ?]| ->]; auto.
      * intros [[?|?] ?]; auto.
    + rewrite lookup_insert_ne by done. rewrite Hinv, elem_of_app.
      rewrite list_elem_of_singleton. split.
      * intros [? ?]; auto.
      * intros [[?| ->] ?]; [auto|done].
Qed.

Lemma group_by_length_lookup (l : list pystr) (k : nat) (p : pystr) :
  p ∈ default [] (group_by_length l !! k) <-> p ∈ l ∧ length p = k.
Proof.
  unfold group_by_length.
  rewrite (group_by_length_lookup_aux l [] ∅); [done|].
  intros k' p'. rewrite lookup_empty. cbn. rewrite elem_of_nil. tauto.
Qed.

Lemma elem_of_sorted_keys (m : gmap nat (list pystr)) (k : nat) :
  k ∈ sorted_keys m <-> is_Some (m !! k).
Proof.
  unfold sorted_keys.
  by rewrite merge_sort_Permutation, elem_of_elements, elem_of_dom.
Qed.

Lemma elem_of_requeue_items (k : nat) (p : pystr) (X : gset pystr)
    (cs : pystr) (prio : Z) (child : pystr) :
  (prio, child) ∈ requeue_items k p X cs
  <-> exists c, c ∈ cs ∧ (child = p ++ [c]) ∧ (child ∉ X)
                ∧ (prio = Z.of_nat k + 1).
Proof.
  unfold requeue_items. rewrite list_elem_of_fmap. split.
  - intros (c & Heq & [Hx Hc]%list_elem_of_filter).
    inversion Heq; subst. eauto.
  - intros (c & Hc & -> & Hx & ->). exists c. split; [done|].
    by apply list_elem_of_filter.
Qed.

Lemma load_checkpoint_items (s : extractor) (cp : checkpoint_data) :
  disk s = Some cp ->
  forall prio child,
    (prio, child) ∈ enqueued s (_load_checkpoint s).1
    <-> exists p c,
          p ∈ cp_explored_prefixes cp ∧ c ∈ charset
          ∧ (child = p ++ [c])
          ∧ (child ∉ cp_explored_prefixes cp)
          ∧ (prio = len p + 1).
Proof.
  intros Hd prio child. unfold _load_checkpoint. rewrite Hd.
  cbn [fst]. rewrite requeue_groups.
  unfold enqueued. cbn [prefix_queue set_prefix_queue set_request_count
    set_explored_prefixes set_discovered_names explored_prefixes].
  rewrite drop_app_length.
  set (X := list_to_set (cp_explored_prefixes cp) : gset (list N)).
  rewrite list_elem_of_bind. split.
  - intros (k & (p & Hitem & Hp)%list_elem_of_bind & Hk).
    apply group_by_length_lookup in Hp as [Hp <-].
    apply elem_of_requeue_items in Hitem as (c & Hc & -> & Hx & ->).
    exists p, c. apply elem_of_elements, elem_of_list_to_set in Hp.
    split_and!; try done.
    intros Hin. apply Hx. by apply elem_of_list_to_set.
  - intros (p & c & Hp & Hc & -> & Hx & ->).
    assert (p ∈ default []
              (group_by_length (elements X) !! length p)) as Hg.
    { apply group_by_length_lookup. split; [|done].
      by apply elem_of_elements, elem_of_list_to_set. }
    exists (length p). split.
    + apply list_elem_of_bind. exists p. split; [|done].
      apply elem_of_requeue_items. exists c. split_and!; try done.
      intros Hin. apply Hx. by apply elem_of_list_to_set in Hin.
    + apply elem_of_sorted_keys.
      destruct (group_by_length (elements X) !! length p); [done|].
      by apply elem_of_nil in Hg.
Qed.

(** X20.  The items [_load_checkpoint] queues are exactly the pairs
    [(len(p) + 1, p + c)] of an explored prefix [p] of the file and a
    character [c] of [charset] whose extension [p + c] is not an explored
    prefix of the file: no explored prefix is queued, and no extension by a
    punctuation character. *)
Theorem load_queues_unexplored_extensions (s : extractor)
    (cp : checkpoint_data) :
  disk s = Some cp ->
  forall prio child,
    (prio, child) ∈ enqueued s (_load_checkpoint s).1
    <-> exists p c,
          p ∈ cp_explored_prefixes cp ∧ c ∈ charset
          ∧ (child = p ++ [c])
          ∧ (child ∉ cp_explored_prefixes cp)
          ∧ (prio = len p + 1).
Proof. apply load_checkpoint_items. Qed.

(** The file left by a run that explored "a". *)
Lemma load_queues_unexplored_extensions_witness :
  (2, str "ab")
    ∈ enqueued (init 100 1.0 200 (Some (snapshot resumed)) 0)
        (_load_checkpoint (init 100 1.0 200 (Some (snapshot resumed)) 0)).1
  <-> exists p c,
        p ∈ cp_explored_prefixes (snapshot resumed) ∧ c ∈ charset
        ∧ (str "ab" = p ++ [c])
        ∧ (str "ab" ∉ cp_explored_prefixes (snapshot resumed))
        ∧ (2 = len p + 1).
Proof.
  apply (load_queues_unexplored_extensions
           (init 100 1.0 200 (Some (snapshot resumed)) 0) (snapshot resumed)).
  reflexivity.
Defined.

(** X21.  On a resume no one-character prefix is queued, unless the empty
    prefix is among the explored ones of the file: every queued prefix has
    at least two characters, so a one-character prefix that was still
    waiting when the checkpoint was written is not explored by the resumed
    run. *)
Theorem resume_queues_no_seed (s : extractor) (cp : checkpoint_data) :
  disk s = Some cp ->
  [] ∉ cp_explored_prefixes cp ->
  forall prio child,
    (prio, child) ∈ enqueued s (_load_checkpoint s).1 ->
    (2 <= length child)%nat ∧ 2 <= prio.
Proof.
  intros Hd Hempty prio child
    (p & c & Hp & _ & -> & _ & ->)%(load_checkpoint_items s cp Hd).
  destruct p as [|x p]; [done|].
  rewrite length_app. unfold len. cbn. lia.
Qed.

Lemma resume_queues_no_seed_witness :
  (2 <= length (str "ab"))%nat ∧ 2 <= 2.
Proof.
  apply (resume_queues_no_seed
           (init 100 1.0 200 (Some (snapshot resumed)) 0) (snapshot resumed)).
  - reflexivity.
  - apply (bool_decide_eq_false_1 _). vm_compute. reflexivity.
  - apply (bool_decide_eq_true_1 _). vm_compute. reflexivity.
Defined.

(** X22.  Loading a checkpoint file and saving again, the write
    succeeding, writes the same names, the same explored prefixes and the
    same request count, each name and each prefix once: the file is kept up
    to order and repetition. *)
Theorem load_then_save_keeps_the_file (s : extractor)
    (cp : checkpoint_data) :
  disk s = Some cp ->
  exists cp',
    disk (_save_checkpoint true (_load_checkpoint s).1).1 = Some cp'
    ∧ (forall name,
         name ∈ cp_discovered_names cp' <-> name ∈ cp_discovered_names cp)
    ∧ (forall prefix,
         prefix ∈ cp_explored_prefixes cp'
         <-> prefix ∈ cp_explored_prefixes cp)
    ∧ cp_request_count cp' = cp_request_count cp
    ∧ NoDup (cp_discovered_names cp')
    ∧ NoDup (cp_explored_prefixes cp').
Proof.
  intros Hd.
  destruct (load_checkpoint_spec s cp Hd) as (s' & Hl & Hn & Hx & Hc & _).
  rewrite Hl. eexists. split; [reflexivity|]. cbn. rewrite Hn, Hx, Hc.
  split_and!; [| |done|apply NoDup_elements|apply NoDup_elements].
  - intros name. by rewrite elem_of_elements, elem_of_list_to_set.
  - intros prefix. by rewrite elem_of_elements, elem_of_list_to_set.
Qed.

Lemma load_then_save_keeps_the_file_witness :
  exists cp',
    disk (_save_checkpoint true
            (_load_checkpoint
               (init 100 1.0 200 (Some (snapshot resumed)) 0)).1).1 = Some cp'
    ∧ (forall name,
         name ∈ cp_discovered_names cp'
         <-> name ∈ cp_discovered_names (snapshot resumed))
    ∧ (forall prefix,
         prefix ∈ cp_explored_prefixes cp'
         <-> prefix ∈ cp_explored_prefixes (snapshot resumed))
    ∧ cp_request_count cp' = cp_request_count (snapshot resumed)
    ∧ NoDup (cp_discovered_names cp')
    ∧ NoDup (cp_explored_prefixes cp').
Proof.
  apply (load_then_save_keeps_the_file
           (init 100 1.0 200 (Some (snapshot resumed)) 0) (snapshot resumed)).
  reflexivity.
Defined.

Lemma foldl_put (f : char -> Z * list N) (cs : pystr) (s : extractor) :
  foldl (fun s first_char => put (f first_char) s) s cs
  = set_prefix_queue (prefix_queue s ++ map f cs) s.
Proof.
  revert s. induction cs as [|c cs IH]; intros s.
  - cbn. by rewrite app_nil_r, set_prefix_queue_id.
  - cbn [foldl]. rewrite IH. unfold put. cbn. by rewrite <- app_assoc.
Qed.

(** X23.  Without a checkpoint file, [crawl_autocomplete] starts from the
    one-character prefixes: it adds to the queue one item for each
    character of the charset, at priority 1 for a digit or a letter and at
    priority 2 for a punctuation character, and nothing else; the rest of
    the object is untouched. *)
Theorem fresh_start_queues_the_seeds (s : extractor) :
  disk s = None ->
  exists new,
    crawl_start s = set_prefix_queue (prefix_queue s ++ new) s
    ∧ length new = 65%nat
    ∧ NoDup new
    ∧ forall prio prefix,
        (prio, prefix) ∈ new
        <-> exists c, prefix = [c]
                      ∧ ((c ∈ charset ∧ prio = 1)
                         ∨ (c ∈ special_charset ∧ prio = 2)).
Proof.
  intros Hd. unfold crawl_start, _load_checkpoint. rewrite Hd.
  rewrite !foldl_put.
  exists (map (fun c => (1, [c])) charset
          ++ map (fun c => (2, [c])) special_charset).
  split_and!.
  - apply set_prefix_queue_app.
  - by vm_compute.
  - apply (bool_decide_unpack _). by vm_compute.
  - intros prio prefix. rewrite elem_of_app, !list_elem_of_fmap. split.
    + intros [(c & [= -> ->] & Hc)|(c & [= -> ->] & Hc)]; eauto 6.
    + intros (c & -> & [[Hc ->]|[Hc ->]]); [left|right]; eauto.
Qed.

Lemma fresh_start_queues_the_seeds_witness :
  exists new,
    crawl_start (fresh 100)
    = set_prefix_queue (prefix_queue (fresh 100) ++ new) (fresh 100)
    ∧ length new = 65%nat
    ∧ NoDup new
    ∧ forall prio prefix,
        (prio, prefix) ∈ new
        <-> exists c, prefix = [c]
                      ∧ ((c ∈ charset ∧ prio = 1)
                         ∨ (c ∈ special_charset ∧ prio = 2)).
Proof.
  apply (fresh_start_queues_the_seeds (fresh 100)). reflexivity.
Defined.

(** X24.  A checkpoint file without explored prefixes stops the resumed
    crawl before it starts: [crawl_autocomplete] queues nothing, not even
    the one-character prefixes, and a worker ends at its first turn without
    a request. *)
Theorem resume_without_explored_prefixes (s : extractor)
    (cp : checkpoint_data) (srv : nat -> service) (turns : nat) :
  disk s = Some cp ->
  cp_explored_prefixes cp = [] ->
  prefix_queue s = [] ->
  prefix_queue (crawl_start s) = []
  ∧ request_count (crawl_start s) = cp_request_count cp
  ∧ worker (S turns) srv (crawl_start s) = Some (crawl_start s).
Proof.
  intros Hd Hx Hq.
  assert (crawl_start s
          = set_request_count (cp_request_count cp)
              (set_explored_prefixes ∅
                 (set_discovered_names
                    (list_to_set (cp_discovered_names cp)) s))) as ->.
  { unfold crawl_start, _load_checkpoint. rewrite Hd, Hx. cbn.
    rewrite elements_empty. by cbn. }
  cbn. rewrite Hq. split_and!; [done | done |].
  unfold worker_iteration. cbn. by rewrite Hq.
Qed.

Lemma resume_without_explored_prefixes_witness :
  let s := init 100 1.0 200 (Some (snapshot (fresh 100))) 0 in
  prefix_queue (crawl_start s) = []
  ∧ request_count (crawl_start s) = cp_request_count (snapshot (fresh 100))
  ∧ worker (S 5) (fun _ => answers [str "aa"]) (crawl_start s)
    = Some (crawl_start s).
Proof.
  intros s.
  apply (resume_without_explored_prefixes s (snapshot (fresh 100))
           (fun _ => answers [str "aa"]) 5).
  - reflexivity.
  - reflexivity.
  - reflexivity.
Defined.

(** * Properties of [save_results] *)

Lemma pystr_trichotomy (a b : pystr) :
  PyStr.ltb a b = true ∨ a = b ∨ PyStr.ltb b a = true.
Proof.
  destruct (PyStr.ltb a b) eqn:Hab; [by left|].
  destruct (PyStr.ltb b a) eqn:Hba; [by right; right|].
  right; left. by apply pystr_ltb_connex.
Qed.

Lemma pystr_le_total : Total pystr_le.
Proof.
  intros a b. unfold pystr_le.
  destruct (PyStr.ltb b a) eqn:E; [|by left].
  right. by apply pystr_ltb_asym.
Qed.

Lemma pystr_le_trans : Transitive pystr_le.
Proof.
  intros a b c. unfold pystr_le. intros Hab Hbc.
  destruct (PyStr.ltb c a) eqn:Hca; [|done].
  destruct (pystr_trichotomy b c) as [H|[->|H]].
  - by rewrite (pystr_ltb_trans b c a H Hca) in Hab.
  - congruence.
  - congruence.
Qed.

Lemma sorted_strictly (l : list pystr) :
  StronglySorted pystr_le l -> NoDup l ->
  StronglySorted (fun a b => PyStr.ltb a b = true) l.
Proof.
  induction 1 as [|x l Hsorted IH Hle]; intros Hnd; [constructor|].
  apply NoDup_cons in Hnd as [Hx Hnd]. constructor; [by apply IH|].
  apply Forall_forall. intros y Hy.
  pose proof (proj1 (Forall_forall _ _) Hle y Hy) as Hxy.
  unfold pystr_le in Hxy.
  destruct (pystr_trichotomy x y) as [H|[->|H]]; [done| |congruence].
  by destruct Hx.
Qed.

(** X25.  The names [save_results] writes are the discovered names, each
    once, in strictly ascending order of strings; [total_names] is their
    number and [total_requests] the request count. *)
Theorem save_results_sorted (s : extractor) :
  let r := save_results s in
  StronglySorted (fun a b => PyStr.ltb a b = true) (names r)
  ∧ (forall name, name ∈ names r <-> name ∈ discovered_names s)
  ∧ total_names r = len (names r)
  ∧ total_requests r = request_count s.
Proof.
  cbv zeta. unfold save_results; cbn [names total_names total_requests].
  pose proof pystr_le_total. pose proof pystr_le_trans.
  split_and!.
  - apply sorted_strictly.
    + by apply (StronglySorted_merge_sort pystr_le).
    + rewrite merge_sort_Permutation. apply NoDup_elements.
  - intros name. by rewrite merge_sort_Permutation, elem_of_elements.
  - unfold len. by rewrite merge_sort_Permutation.
  - done.
Qed.

(** The output of a run that found "b", "ab" and "a1". *)
Example save_results_run :
  save_results
    (set_request_count 7
       (set_discovered_names {[str "b"; str "ab"; str "a1"]} (fresh 100)))
  = {| total_requests := 7;
       total_names := 3;
       names := [str "a1"; str "ab"; str "b"] |}.
Proof. by vm_compute. Qed.

(** * What a turn of a worker leaves explored *)




(** X27.  When every request of the fetch for an unexplored prefix fails
    (a 429, a status of 500 and above or a transport error, nine times),
    the turn of the worker records no name and enqueues nothing, and, with
    [max_results] other than zero, still marks the prefix explored: the
    names under that prefix are given up. *)
Theorem failed_prefix_is_given_up (srv : service) (s : extractor)
    (priority : Z) (prefix : pystr) (q : list (Z * list N)) :
  max_results s ≠ 0 ->
  queue_get (prefix_queue s) = Some ((priority, prefix), q) ->
  prefix ∉ explored_prefixes s ->
  (forall k, (k <= 8)%nat -> is_failure (srv prefix k)) ->
  let s' := (worker_iteration srv s).1 in
  discovered_names s' = discovered_names s
  ∧ prefix_queue s' = q
  ∧ explored_prefixes s' = {[prefix]} ∪ explored_prefixes s.
Proof.
  intros Hm Hg Hnew Hfail. cbv zeta. unfold worker_iteration. rewrite Hg.
  cbn [explored_prefixes set_prefix_queue]. rewrite decide_False by done.
  unfold explore_prefix, get_autocomplete_suggestions.
  pose proof (fetch_exhausted (8 - 0) srv prefix 0 (set_prefix_queue q s))
    as Hl.
  pose proof (fetch_same_crawl (8 - 0) srv prefix 0 (set_prefix_queue q s))
    as (Hm1 & _ & Hn & Hx & Hq & _).
  destruct (fetch (8 - 0) srv prefix 0 (set_prefix_queue q s)) as [s1 l].
  cbn [fst snd] in *. rewrite Hl by (intros k Hk; apply Hfail; lia).
  cbn [max_results set_prefix_queue] in Hm1.
  rewrite expand_other_size by (unfold len; cbn; lia). cbn.
  rewrite Hn, Hq, Hx. split_and!; [|done|done].
  by rewrite (right_id_L ∅ (∪)).
Qed.

Lemma failed_prefix_is_given_up_witness :
  let s := set_prefix_queue [(1, str "a")] (fresh 2) in
  let s' := (worker_iteration always_limited s).1 in
  discovered_names s' = discovered_names s
  ∧ prefix_queue s' = []
  ∧ explored_prefixes s' = {[str "a"]} ∪ explored_prefixes s.
Proof.
  intros s.
  apply (failed_prefix_is_given_up always_limited s 1 (str "a") []).
  - discriminate.
  - reflexivity.
  - apply not_elem_of_empty.
  - intros k _. left. reflexivity.
Defined.
